(** * Verification of [assets/lrc-loader.js]

    A shallow embedding of the [LRCLoader] class: the LRC parser
    [parseLRC] and the caching loader [loadLRC] / [getLyrics].

    Modelling conventions.
    - A JavaScript string is the list of its UTF-16 code units
      ([jsstring]); the regular expressions of the source only look at
      code units, and so does [String.prototype.trim].
    - The two regular expressions are transcribed as matchers that try
      the alternatives in the order a backtracking engine does.
    - Numbers that the parser produces are small non-negative integers and
      one intermediate decimal fraction; they are computed exactly, in [Z]
      and [Q] (see [Math_round]).
    - The loader threads an explicit state: the own properties of
      [this.cache] and the list of collaborator calls made so far.  A
      call of an [async] method ends with a value or by throwing
      ([Completion]); calls are run one after the other ([run]) or
      resumed in any order at their [await]s ([interleave]). *)

From Stdlib Require Import ZArith QArith Qround List Ascii String Lia Bool.
From Stdlib Require Import Sorted Permutation.
From stdpp Require Import gmap list.

Local Open Scope N_scope.

(** ** Strings *)

Abbreviation jsstring := (list N).

(** The code units of an ASCII literal. *)
Definition js (s : string) : jsstring :=
  List.map N_of_ascii (list_ascii_of_string s).

Fixpoint jsstring_eqb (a b : jsstring) : bool :=
  match a, b with
  | [], [] => true
  | x :: a', y :: b' => (x =? y) && jsstring_eqb a' b'
  | _, _ => false
  end.

(** [WhiteSpace] and [LineTerminator] of ECMAScript: what [trim] strips. *)
Definition is_space (c : N) : bool :=
  (c =? 0x09) || (c =? 0x0A) || (c =? 0x0B) || (c =? 0x0C) || (c =? 0x0D)
  || (c =? 0x20) || (c =? 0xA0) || (c =? 0x1680)
  || ((0x2000 <=? c) && (c <=? 0x200A))
  || (c =? 0x2028) || (c =? 0x2029) || (c =? 0x202F) || (c =? 0x205F)
  || (c =? 0x3000) || (c =? 0xFEFF).

Fixpoint trimStart (s : jsstring) : jsstring :=
  match s with
  | [] => []
  | c :: r => if is_space c then trimStart r else s
  end.

Definition trimEnd (s : jsstring) : jsstring := rev (trimStart (rev s)).

(** [s.trim()] *)
Definition trim (s : jsstring) : jsstring := trimEnd (trimStart s).

(** [s.split("\n")] *)
Fixpoint split_lines (s : jsstring) : list jsstring :=
  match s with
  | [] => [[]]
  | c :: r =>
      if c =? 0x0A then [] :: split_lines r
      else match split_lines r with
           | l :: ls => (c :: l) :: ls
           | [] => [[c]]
           end
  end.

(** [s.padEnd(n, "0")] and [s.slice(0, n)] *)
Definition padEnd0 (n : nat) (s : jsstring) : jsstring :=
  s ++ repeat 0x30 (n - length s)%nat.

Definition slice0 (n : nat) (s : jsstring) : jsstring := firstn n s.

(** ** Digits and [parseInt] *)

Definition is_digit (c : N) : bool := (0x30 <=? c) && (c <=? 0x39).

Definition digit_value (c : N) : Z := (Z.of_N c - 0x30)%Z.

(** [parseInt(s, 10)] on a string of decimal digits.  The parser only
    calls it on captures of [\d{2}] and [\d{2,3}], so neither the sign,
    the leading blanks nor the [NaN] result of the general function can
    occur (lemma [timeRegex_match_digits]). *)
Definition parseInt10 (s : jsstring) : Z :=
  fold_left (fun acc c => (acc * 10 + digit_value c)%Z) s 0%Z.

(** ** The timestamp pattern

    [/\[(\d{2}):(\d{2})(?:[.:](\d{2,3}))?\]/g] *)

(** The captures of one match: [match[1]], [match[2]] and [match[3]]
    ([None] when the optional group did not take part). *)
Record TimeMatch := {
  match1 : jsstring;
  match2 : jsstring;
  match3 : option jsstring;
}.

Definition lit (c : N) (s : jsstring) : option jsstring :=
  match s with
  | x :: r => if x =? c then Some r else None
  | [] => None
  end.

(** [\d{n}]: exactly [n] digits, returned with what follows them. *)
Fixpoint digits (n : nat) (s : jsstring) : option (jsstring * jsstring) :=
  match n with
  | O => Some ([], s)
  | S n' =>
      match s with
      | c :: r =>
          if is_digit c then
            match digits n' r with
            | Some (ds, r') => Some (c :: ds, r')
            | None => None
            end
          else None
      | [] => None
      end
  end.

(** [[.:]] *)
Definition separator (s : jsstring) : option jsstring :=
  match s with
  | x :: r => if (x =? 0x2E) || (x =? 0x3A) then Some r else None
  | [] => None
  end.

(** [[.:](\d{n})\]] for a fixed number of fraction digits. *)
Definition fraction_close (n : nat) (s : jsstring)
  : option (option jsstring * jsstring) :=
  match separator s with
  | Some r =>
      match digits n r with
      | Some (f, r') =>
          match lit 0x5D r' with
          | Some r'' => Some (Some f, r'')
          | None => None
          end
      | None => None
      end
  | None => None
  end.

(** [(?:[.:](\d{2,3}))?\]]: the quantifiers are greedy, so the engine
    tries three fraction digits, then two, then no fraction at all. *)
Definition tail_close (s : jsstring) : option (option jsstring * jsstring) :=
  match fraction_close 3 s with
  | Some r => Some r
  | None =>
      match fraction_close 2 s with
      | Some r => Some r
      | None =>
          match lit 0x5D s with
          | Some r => Some (None, r)
          | None => None
          end
      end
  end.

(** A match of the whole pattern at the start of [s], with the rest of
    the string after the match. *)
Definition timeRegex_match (s : jsstring) : option (TimeMatch * jsstring) :=
  match lit 0x5B s with
  | Some r0 =>
      match digits 2 r0 with
      | Some (mm, r1) =>
          match lit 0x3A r1 with
          | Some r2 =>
              match digits 2 r2 with
              | Some (ss, r3) =>
                  match tail_close r3 with
                  | Some (f, r4) =>
                      Some ({| match1 := mm; match2 := ss; match3 := f |}, r4)
                  | None => None
                  end
              | None => None
              end
          | None => None
          end
      | None => None
      end
  | None => None
  end.

(** The leftmost match in [s]: the text before it, the captures and the
    text after it.  This is one [timeRegex.exec] from the position where
    [s] starts; a successful call leaves [lastIndex] at the start of the
    returned rest, a failed one resets it to 0. *)
Fixpoint timeRegex_exec (s : jsstring)
  : option (jsstring * TimeMatch * jsstring) :=
  match timeRegex_match s with
  | Some (m, rest) => Some ([], m, rest)
  | None =>
      match s with
      | [] => None
      | c :: r =>
          match timeRegex_exec r with
          | Some (pre, m, rest) => Some (c :: pre, m, rest)
          | None => None
          end
      end
  end.

(** ** Time of a match *)

(** [Math.round] on an exact rational: the nearest integer, halves up.
    The argument of the one call in the source is
    [minutes * 60 + seconds + milliseconds / 1000] with
    [minutes, seconds <= 99] and [milliseconds <= 999]: in binary64 the
    quotient and the sum are each within 2^-40 of the exact value, the
    sum is exactly [n + 0.5] when [milliseconds = 500], below it when
    [milliseconds < 500] and above it otherwise, so rounding the double
    and rounding the exact rational give the same integer. *)
Definition Math_round (q : Q) : Z := Qfloor (q + (1 # 2)).

Definition milliseconds (f : option jsstring) : Z :=
  match f with
  | Some d => parseInt10 (slice0 3 (padEnd0 3 d))
  | None => 0%Z
  end.

Definition totalSeconds (m : TimeMatch) : Q :=
  let minutes := parseInt10 (match1 m) in
  let seconds := parseInt10 (match2 m) in
  let milliseconds := milliseconds (match3 m) in
  inject_Z (minutes * 60 + seconds) + Qmake milliseconds 1000.

Definition timestamp_of (m : TimeMatch) : Z := Math_round (totalSeconds m).

(** The [while ((match = timeRegex.exec(line)) !== null)] loop, which
    pushes one rounded time per match.  Every match consumes at least
    seven code units, so [length line] iterations are more than the loop
    can make (lemma [exec_loop_fuel]). *)
Fixpoint exec_loop (fuel : nat) (s : jsstring) : list Z :=
  match fuel with
  | O => []
  | S fuel' =>
      match timeRegex_exec s with
      | Some (_, m, rest) => timestamp_of m :: exec_loop fuel' rest
      | None => []
      end
  end.

Definition timestamps_of (line : jsstring) : list Z :=
  exec_loop (length line) line.

(** [line.replace(timeRegex, "")]: every match, found left to right as
    by [exec], is deleted; the text between matches is kept. *)
Fixpoint replace_loop (fuel : nat) (s : jsstring) : jsstring :=
  match fuel with
  | O => s
  | S fuel' =>
      match timeRegex_exec s with
      | Some (pre, _, rest) => pre ++ replace_loop fuel' rest
      | None => s
      end
  end.

Definition remove_timestamps (line : jsstring) : jsstring :=
  replace_loop (length line) line.

(** ** The metadata pattern

    [/^\[(ar|ti|al|au|length|by|offset|re|ve|id|la):/i] *)

Definition metadata_tags : list string :=
  ["ar"; "ti"; "al"; "au"; "length"; "by"; "offset"; "re"; "ve"; "id";
   "la"]%string.

(** Case folding of the [i] flag (without [u]): a code unit is compared
    through its upper-case form, and no code unit outside ASCII folds to
    an ASCII one, so against the ASCII pattern only the ASCII letters
    matter. *)
Definition canonicalize (c : N) : N :=
  if (0x61 <=? c) && (c <=? 0x7A) then c - 0x20 else c.

Fixpoint prefix_ci (p s : jsstring) : bool :=
  match p, s with
  | [], _ => true
  | x :: p', y :: s' => (canonicalize x =? canonicalize y) && prefix_ci p' s'
  | _ :: _, [] => false
  end.

Definition is_metadata (line : jsstring) : bool :=
  match line with
  | c :: r =>
      (c =? 0x5B)
      && existsb (fun tag => prefix_ci (js tag ++ [0x3A]) r) metadata_tags
  | [] => false
  end.

(** ** Lyric entries *)

Record LyricLine := { time : Z; text : jsstring }.

(** ["\u2022\u2022\u2022"], the placeholder of a line without text, and
    ["\u266A"], the text of the leading marker. *)
Definition placeholder : jsstring := [0x2022; 0x2022; 0x2022].
Definition music_note : jsstring := [0x266A].

Definition is_empty (s : jsstring) : bool :=
  match s with [] => true | _ => false end.

(** The text shared by the entries of a line. *)
Definition textPart_of (line : jsstring) : jsstring :=
  let textPart := trim (remove_timestamps line) in
  if is_empty textPart then placeholder else textPart.

(** One iteration of [for (const line of lines)], on the array [lyrics]
    built so far. *)
Definition process_line (lyrics : list LyricLine) (line : jsstring)
  : list LyricLine :=
  if is_metadata line then lyrics
  else
    let trimmedLine := trim line in
    if is_empty trimmedLine then lyrics
    else
      let timestamps := timestamps_of line in
      let textPart := textPart_of line in
      fold_left
        (fun lyrics t => lyrics ++ [{| time := t; text := textPart |}])
        timestamps lyrics.

(** The entries accumulated by the loop over the lines, in the order in
    which they were pushed. *)
Definition collect (lrcContent : jsstring) : list LyricLine :=
  fold_left process_line (split_lines lrcContent) [].

(** ** Sorting

    [Array.prototype.sort] with a consistent comparator returns the
    elements in an order where no element is followed by a smaller one,
    elements that compare equal keeping their relative order (the sort is
    stable since ECMAScript 2019).  Only one arrangement satisfies this;
    it is computed here by insertion from the right. *)

Section ArraySort.
Context {A : Type} (compareFn : A -> A -> Z).

Fixpoint sort_insert (x : A) (l : list A) : list A :=
  match l with
  | [] => [x]
  | y :: l' =>
      if (compareFn x y <=? 0)%Z then x :: l else y :: sort_insert x l'
  end.

Fixpoint Array_sort (l : list A) : list A :=
  match l with
  | [] => []
  | x :: l' => sort_insert x (Array_sort l')
  end.
End ArraySort.

(** [(a, b) => a.time - b.time] *)
Definition by_time (a b : LyricLine) : Z := (time a - time b)%Z.

(** ** [parseLRC] *)

Definition leading_note : LyricLine := {| time := 0; text := music_note |}.

Definition sorted_lyrics (lrcContent : jsstring) : list LyricLine :=
  Array_sort by_time (collect lrcContent).

Definition parseLRC (lrcContent : jsstring) : list LyricLine :=
  let lyrics := sorted_lyrics lrcContent in
  match lyrics with
  | first :: _ =>
      if (time first >? 2)%Z then leading_note :: lyrics else lyrics
  | [] => lyrics
  end.

(** ** The loader *)

(** *** Values

    [this.cache = {}] is an ordinary object: reading [this.cache[key]]
    finds the own property [key] or else the property that the object
    inherits from [Object.prototype].  The inherited properties are the
    built-in ones (a pristine realm is assumed). *)
Inductive Builtin :=
| Object_constructor
| Object_hasOwnProperty
| Object_isPrototypeOf
| Object_propertyIsEnumerable
| Object_toLocaleString
| Object_toString
| Object_valueOf
| Object_defineGetter
| Object_defineSetter
| Object_lookupGetter
| Object_lookupSetter
| Object_prototype.

Definition Object_prototype_properties : list (string * Builtin) :=
  [("constructor", Object_constructor);
   ("hasOwnProperty", Object_hasOwnProperty);
   ("isPrototypeOf", Object_isPrototypeOf);
   ("propertyIsEnumerable", Object_propertyIsEnumerable);
   ("toLocaleString", Object_toLocaleString);
   ("toString", Object_toString);
   ("valueOf", Object_valueOf);
   ("__defineGetter__", Object_defineGetter);
   ("__defineSetter__", Object_defineSetter);
   ("__lookupGetter__", Object_lookupGetter);
   ("__lookupSetter__", Object_lookupSetter);
   ("__proto__", Object_prototype)]%string.

Fixpoint assoc_get {B : Type} (key : jsstring) (l : list (string * B))
  : option B :=
  match l with
  | [] => None
  | (name, b) :: l' =>
      if jsstring_eqb (js name) key then Some b else assoc_get key l'
  end.

Definition inherited (key : jsstring) : option Builtin :=
  assoc_get key Object_prototype_properties.

(** The [length] property of a built-in: the arity of a function,
    [undefined] ([None]) on the prototype object itself. *)
Definition Builtin_length (b : Builtin) : option Z :=
  match b with
  | Object_constructor | Object_hasOwnProperty | Object_isPrototypeOf
  | Object_propertyIsEnumerable | Object_lookupGetter
  | Object_lookupSetter => Some 1%Z
  | Object_toLocaleString | Object_toString | Object_valueOf => Some 0%Z
  | Object_defineGetter | Object_defineSetter => Some 2%Z
  | Object_prototype => None
  end.

(** What [loadLRC] and [getLyrics] can evaluate to. *)
Inductive JSValue :=
| JSNull
| JSUndefined
| JSArray (lines : list LyricLine)
| JSBuiltin (b : Builtin).

Definition truthy (v : JSValue) : bool :=
  match v with
  | JSNull | JSUndefined => false
  | JSArray _ | JSBuiltin _ => true
  end.

(** [v.length > 0], for a truthy [v]. *)
Definition length_positive (v : JSValue) : bool :=
  match v with
  | JSArray l => (0 <? Z.of_nat (length l))%Z
  | JSBuiltin b =>
      match Builtin_length b with
      | Some n => (0 <? n)%Z
      | None => false
      end
  | JSNull | JSUndefined => false
  end.

(** *** Collaborators *)

(** What a rejected promise carries, as far as the [catch] block of
    [loadLRC] can tell: the block reads [error.message].  On an [Error]
    object (what [fetch] and [response.text()] reject with by the Fetch
    standard), on any other object and on a primitive the read succeeds
    ([ReasonError]); on [undefined] and [null] the read itself throws a
    [TypeError] ([ReasonNullish]; a [message] getter that throws behaves
    the same). *)
Inductive Reason :=
| ReasonError
| ReasonNullish.

(** The outcome of [await response.text()]. *)
Inductive BodyResult :=
| BodyText (lrcContent : jsstring)
| BodyRejects (reason : Reason).

(** The outcome of [await fetch(url)] followed, on an [ok] response, by
    [await response.text()]; either promise may reject.  A [TypeError]
    raised inside the [try] block by a response of the wrong shape is a
    rejection with [ReasonError]. *)
Inductive FetchResult :=
| FetchRejects (reason : Reason)
| FetchResponse (ok : bool) (body : BodyResult).

(** How a call of an [async] method ends: its promise is fulfilled with
    a value, or rejected. *)
Inductive Completion :=
| Normal (v : JSValue)
| Throws.

(** An entry of the global [lyricsData] table of [lyrics.js], which is
    outside this file: its [lines] property, when it has one. *)
Record SongLyrics := { lines : option (list LyricLine) }.

(** The environment of one call: what [fetch] answers for each URL, and
    the global [lyricsData] ([None] when [typeof lyricsData] is
    ["undefined"]) as the function [key |-> lyricsData[key]]. *)
Record Env := {
  fetch : jsstring -> FetchResult;
  lyricsData : option (jsstring -> option SongLyrics);
}.

(** What a call does to the outside, in order. *)
Inductive Event :=
| EvFetch (url : jsstring)
| EvLogNotFound (lyricsKey : jsstring)
| EvLogLoaded (lyricsKey : jsstring) (n : nat)
| EvLogError (lyricsKey : jsstring)
| EvLyricsData (lyricsKey : jsstring).

(** *** State

    The two fields of the instance, and the events so far. *)
Record LRCLoader := {
  basePath : jsstring;
  cache : gmap jsstring (list LyricLine);
  trace : list Event;
}.

(** [new LRCLoader(basePath)] and the global [lrcLoader]. *)
Definition new_LRCLoader (basePath : jsstring) : LRCLoader :=
  {| basePath := basePath; cache := ∅; trace := [] |}.

Definition lrcLoader : LRCLoader := new_LRCLoader (js "./assets/lyrics/").

Definition emit (e : Event) (this : LRCLoader) : LRCLoader :=
  {| basePath := basePath this; cache := cache this;
     trace := trace this ++ [e] |}.

(** [this.cache[lyricsKey]] *)
Definition cache_get (this : LRCLoader) (lyricsKey : jsstring) : JSValue :=
  match cache this !! lyricsKey with
  | Some lyrics => JSArray lyrics
  | None =>
      match inherited lyricsKey with
      | Some b => JSBuiltin b
      | None => JSUndefined
      end
  end.

(** [this.cache[lyricsKey] = lyrics].  The assignment is only reached
    after [this.cache[lyricsKey]] was read as falsy, so [lyricsKey] names
    no inherited property (lemma [cache_get_falsy]) and the assignment
    creates or overwrites an own data property. *)
Definition cache_set (this : LRCLoader) (lyricsKey : jsstring)
  (lyrics : list LyricLine) : LRCLoader :=
  {| basePath := basePath this; cache := <[lyricsKey := lyrics]> (cache this);
     trace := trace this |}.

(** *** [loadLRC] *)

Definition lrc_url (this : LRCLoader) (lyricsKey : jsstring) : jsstring :=
  basePath this ++ lyricsKey ++ js ".lrc".

(** The [catch (error)] block: the arguments of [console.log] are
    evaluated first, so when reading [error.message] throws nothing is
    logged and the exception leaves [loadLRC]. *)
Definition catch_error (this : LRCLoader) (lyricsKey : jsstring)
  (error : Reason) : Completion * LRCLoader :=
  match error with
  | ReasonError => (Normal JSNull, emit (EvLogError lyricsKey) this)
  | ReasonNullish => (Throws, this)
  end.

Definition loadLRC (env : Env) (this : LRCLoader) (lyricsKey : jsstring)
  : Completion * LRCLoader :=
  if truthy (cache_get this lyricsKey)
  then (Normal (cache_get this lyricsKey), this)
  else
    let url := lrc_url this lyricsKey in
    let this := emit (EvFetch url) this in
    match fetch env url with
    | FetchRejects error => catch_error this lyricsKey error
    | FetchResponse false _ =>
        (Normal JSNull, emit (EvLogNotFound lyricsKey) this)
    | FetchResponse true (BodyRejects error) =>
        catch_error this lyricsKey error
    | FetchResponse true (BodyText lrcContent) =>
        let lyrics := parseLRC lrcContent in
        if (0 <? Z.of_nat (length lyrics))%Z then
          let this := cache_set this lyricsKey lyrics in
          (Normal (JSArray lyrics),
           emit (EvLogLoaded lyricsKey (length lyrics)) this)
        else (Normal JSNull, this)
    end.

(** *** [getLyrics]

    The argument is a string or [null] ([None]). *)

(** [lyricsData[lyricsKey]?.lines], guarded by the [typeof] test. *)
Definition fallback_lines (env : Env) (lyricsKey : jsstring) : JSValue :=
  match lyricsData env with
  | Some table =>
      match table lyricsKey with
      | Some entry =>
          match lines entry with
          | Some l => JSArray l
          | None => JSUndefined
          end
      | None => JSUndefined
      end
  | None => JSUndefined
  end.

(** [await this.loadLRC(lyricsKey)] is not inside a [try]: when the
    promise of [loadLRC] is rejected, so is that of [getLyrics]. *)
Definition getLyrics (env : Env) (this : LRCLoader)
  (lyricsKey : option jsstring) : Completion * LRCLoader :=
  match lyricsKey with
  | None => (Normal JSNull, this)
  | Some [] => (Normal JSNull, this)
  | Some lyricsKey =>
      match loadLRC env this lyricsKey with
      | (Throws, this) => (Throws, this)
      | (Normal lrcLyrics, this) =>
          if truthy lrcLyrics && length_positive lrcLyrics
          then (Normal lrcLyrics, this)
          else
            let this := emit (EvLyricsData lyricsKey) this in
            if truthy (fallback_lines env lyricsKey)
            then (Normal (fallback_lines env lyricsKey), this)
            else (Normal JSNull, this)
      end
  end.

(** * Notions used in the statements *)

(** ** Entries of one line, ordering, entries at a time *)

(** What one iteration of the loop appends to [lyrics]
    (lemma [process_line_eq]). *)
Definition line_entries (line : jsstring) : list LyricLine :=
  if is_metadata line then []
  else if is_empty (trim line) then []
  else
    List.map (fun t => {| time := t; text := textPart_of line |})
      (timestamps_of line).

Definition le_time (a b : LyricLine) : Prop := (time a <= time b)%Z.

(** The entries of [l] whose time is [t], in the order of [l]. *)
Definition at_time (t : Z) (l : list LyricLine) : list LyricLine :=
  List.filter (fun e => (time e =? t)%Z) l.

(** The synthetic entry in front of the sorted entries, if any. *)
Definition leading (lyrics : list LyricLine) : list LyricLine :=
  match lyrics with
  | first :: _ => if (time first >? 2)%Z then [leading_note] else []
  | [] => []
  end.

(** ** Well-formed timestamp tokens

    The tokens [[MM:SS]], [[MM:SS.ff]] and [[MM:SS.fff]] (with [.] or [:]
    before the fraction), as data: what the documentation of the format
    describes, against which the matcher is compared. *)

Inductive Digit := D0 | D1 | D2 | D3 | D4 | D5 | D6 | D7 | D8 | D9.

Definition Digit_value (d : Digit) : Z :=
  match d with
  | D0 => 0 | D1 => 1 | D2 => 2 | D3 => 3 | D4 => 4
  | D5 => 5 | D6 => 6 | D7 => 7 | D8 => 8 | D9 => 9
  end%Z.

Definition Digit_code (d : Digit) : N := 0x30 + Z.to_N (Digit_value d).

Inductive Separator := Dot | Colon.

Definition Separator_code (x : Separator) : N :=
  match x with Dot => 0x2E | Colon => 0x3A end.

Inductive Fraction :=
| NoFraction
| Fraction2 (x : Separator) (f1 f2 : Digit)
| Fraction3 (x : Separator) (f1 f2 f3 : Digit).

Record Token := {
  tok_m1 : Digit; tok_m2 : Digit;
  tok_s1 : Digit; tok_s2 : Digit;
  tok_fraction : Fraction;
}.

Definition render_fraction (f : Fraction) : jsstring :=
  match f with
  | NoFraction => []
  | Fraction2 x f1 f2 => [Separator_code x; Digit_code f1; Digit_code f2]
  | Fraction3 x f1 f2 f3 =>
      [Separator_code x; Digit_code f1; Digit_code f2; Digit_code f3]
  end.

(** The text of a token. *)
Definition render (tok : Token) : jsstring :=
  [0x5B; Digit_code (tok_m1 tok); Digit_code (tok_m2 tok); 0x3A;
   Digit_code (tok_s1 tok); Digit_code (tok_s2 tok)]
  ++ render_fraction (tok_fraction tok) ++ [0x5D].

(** The captures of the pattern on a token. *)
Definition captures (tok : Token) : TimeMatch :=
  {| match1 := [Digit_code (tok_m1 tok); Digit_code (tok_m2 tok)];
     match2 := [Digit_code (tok_s1 tok); Digit_code (tok_s2 tok)];
     match3 :=
       match tok_fraction tok with
       | NoFraction => None
       | Fraction2 _ f1 f2 => Some [Digit_code f1; Digit_code f2]
       | Fraction3 _ f1 f2 f3 =>
           Some [Digit_code f1; Digit_code f2; Digit_code f3]
       end |}.

(** Minutes, seconds and milliseconds that a token denotes: a fraction
    of two digits [ff] stands for [ff0] milliseconds. *)
Definition Token_minutes (tok : Token) : Z :=
  (10 * Digit_value (tok_m1 tok) + Digit_value (tok_m2 tok))%Z.

Definition Token_seconds (tok : Token) : Z :=
  (10 * Digit_value (tok_s1 tok) + Digit_value (tok_s2 tok))%Z.

Definition Token_milliseconds (tok : Token) : Z :=
  match tok_fraction tok with
  | NoFraction => 0
  | Fraction2 _ f1 f2 => (10 * Digit_value f1 + Digit_value f2) * 10
  | Fraction3 _ f1 f2 f3 =>
      100 * Digit_value f1 + 10 * Digit_value f2 + Digit_value f3
  end%Z.

(** [MM * 60 + SS + ms / 1000], rounded to the nearest second with
    halves up. *)
Definition Token_time (tok : Token) : Z :=
  Qfloor (inject_Z (Token_minutes tok * 60 + Token_seconds tok)
          + Qmake (Token_milliseconds tok) 1000 + (1 # 2)).

(** The text of a token whose fraction has a single digit, which the
    pattern does not accept. *)
Definition render_short (m1 m2 s1 s2 : Digit) (x : Separator) (f : Digit)
  : jsstring :=
  [0x5B; Digit_code m1; Digit_code m2; 0x3A; Digit_code s1; Digit_code s2;
   Separator_code x; Digit_code f; 0x5D].

(** ** Lines made of tokens and plain text

    A line as a sequence of timestamp tokens and stretches of text that
    contain no opening bracket. *)

Inductive Piece :=
| Text (s : jsstring)
| Tok (tok : Token).

Definition no_bracket (s : jsstring) : bool :=
  forallb (fun c => negb (c =? 0x5B)) s.

Definition plain_piece (p : Piece) : bool :=
  match p with Text s => no_bracket s | Tok _ => true end.

Definition render_piece (p : Piece) : jsstring :=
  match p with Text s => s | Tok tok => render tok end.

Fixpoint render_pieces (ps : list Piece) : jsstring :=
  match ps with
  | [] => []
  | p :: ps' => render_piece p ++ render_pieces ps'
  end.

Fixpoint tokens_of (ps : list Piece) : list Token :=
  match ps with
  | [] => []
  | Text _ :: ps' => tokens_of ps'
  | Tok tok :: ps' => tok :: tokens_of ps'
  end.

Fixpoint texts_of (ps : list Piece) : jsstring :=
  match ps with
  | [] => []
  | Text s :: ps' => s ++ texts_of ps'
  | Tok _ :: ps' => texts_of ps'
  end.

(** The text that the entries of such a line share. *)
Definition shared_text (ps : list Piece) : jsstring :=
  if is_empty (trim (texts_of ps)) then placeholder else trim (texts_of ps).

(** ** Histories of calls *)

(** A call of [getLyrics] stores [lyrics] under [lyricsKey]: the key is
    not empty, [this.cache[lyricsKey]] is falsy, the fetch succeeds and
    its text parses to the non-empty [lyrics]. *)
Definition stores (env : Env) (this : LRCLoader) (lyricsKey : jsstring)
  (lyrics : list LyricLine) : Prop :=
  lyricsKey <> [] /\
  truthy (cache_get this lyricsKey) = false /\
  exists lrcContent,
    fetch env (lrc_url this lyricsKey)
    = FetchResponse true (BodyText lrcContent)
    /\ parseLRC lrcContent = lyrics /\ lyrics <> [].

(** A call: the environment in which it runs and its argument. *)
Definition Call : Type := Env * option jsstring.

(** The loader after a sequence of calls, each run to completion. *)
Definition run (this : LRCLoader) (calls : list Call) : LRCLoader :=
  fold_left (fun this c => snd (getLyrics (fst c) this (snd c))) calls this.

(** One of [calls] stored [lyrics] under [lyricsKey]. *)
Definition stored_before (this : LRCLoader) (calls : list Call)
  (lyricsKey : jsstring) (lyrics : list LyricLine) : Prop :=
  exists before env after,
    calls = before ++ (env, Some lyricsKey) :: after /\
    stores env (run this before) lyricsKey lyrics.

(** What the fallback table gives for a key: its [lines], or [null]. *)
Definition fallback_result (env : Env) (lyricsKey : jsstring) : JSValue :=
  match lyricsData env with
  | Some table =>
      match table lyricsKey with
      | Some {| lines := Some l |} => JSArray l
      | _ => JSNull
      end
  | None => JSNull
  end.

(** The primary path finds nothing: the fetch or the reading of the body
    raises, the response is not [ok], or the text parses to no entry. *)
Definition primary_fails (env : Env) (this : LRCLoader)
  (lyricsKey : jsstring) : Prop :=
  (exists error, fetch env (lrc_url this lyricsKey) = FetchRejects error) \/
  (exists body, fetch env (lrc_url this lyricsKey) = FetchResponse false body)
  \/
  (exists error,
     fetch env (lrc_url this lyricsKey)
     = FetchResponse true (BodyRejects error)) \/
  exists lrcContent,
    fetch env (lrc_url this lyricsKey)
    = FetchResponse true (BodyText lrcContent)
    /\ parseLRC lrcContent = [].

(** What is raised on the primary path, if anything: the reason with
    which the fetch or the reading of the body rejects. *)
Definition raised (env : Env) (this : LRCLoader) (lyricsKey : jsstring)
  : option Reason :=
  match fetch env (lrc_url this lyricsKey) with
  | FetchRejects error => Some error
  | FetchResponse true (BodyRejects error) => Some error
  | _ => None
  end.

(** An environment with one lyrics file and no fallback table: [fetch]
    answers [ok] with [lrcContent] at [url] and a response that is not
    [ok] anywhere else. *)
Definition env_with_file (url lrcContent : jsstring) : Env :=
  {| fetch := fun u =>
       if jsstring_eqb u url then FetchResponse true (BodyText lrcContent)
       else FetchResponse false (BodyText []);
     lyricsData := None |}.

(** An environment in which every fetch is rejected with [error]. *)
Definition env_rejecting (error : Reason) : Env :=
  {| fetch := fun _ => FetchRejects error; lyricsData := None |}.

(** ** Events and loaders *)

Definition is_fetch (e : Event) : bool :=
  match e with EvFetch _ => true | _ => false end.

(** Two loaders with the same fields, whatever happened before. *)
Definition same_fields (a b : LRCLoader) : Prop :=
  basePath a = basePath b /\ cache a = cache b.

(** ** Calls in flight

    [loadLRC] and [getLyrics] are [async]: a call runs up to an [await],
    and is resumed when the awaited promise is settled; other calls may
    run in between.  A [Task] is a call of [getLyrics] at one of its
    points of suspension, with the environment that answers it.  [run]
    above takes each call through all its steps before the next call is
    made (lemma [resume_getLyrics]); [interleave] resumes the calls of a
    pool in any order. *)
Inductive Task :=
| Called (env : Env) (lyricsKey : option jsstring)
| AwaitFetch (env : Env) (lyricsKey : jsstring) (answer : FetchResult)
| AwaitText (env : Env) (lyricsKey : jsstring) (body : BodyResult)
| AwaitLoadLRC (env : Env) (lyricsKey : jsstring) (result : Completion)
| Settled (result : Completion).

(** One stretch of a call, from where it is to its next [await] or to
    its end:
    - [Called]: the guard of [getLyrics], then the start of [loadLRC]:
      the test of the cache and, on a miss, the call of [fetch];
    - [AwaitFetch]: from [await fetch(...)] to [await response.text()];
    - [AwaitText]: from [await response.text()] to the end of [loadLRC],
      where the cache is written without being read again;
    - [AwaitLoadLRC]: from [await this.loadLRC(...)] to the end of
      [getLyrics]. *)
Definition resume (this : LRCLoader) (t : Task) : LRCLoader * Task :=
  match t with
  | Called env None => (this, Settled (Normal JSNull))
  | Called env (Some []) => (this, Settled (Normal JSNull))
  | Called env (Some lyricsKey) =>
      if truthy (cache_get this lyricsKey)
      then
        (this, AwaitLoadLRC env lyricsKey (Normal (cache_get this lyricsKey)))
      else
        let url := lrc_url this lyricsKey in
        (emit (EvFetch url) this, AwaitFetch env lyricsKey (fetch env url))
  | AwaitFetch env lyricsKey answer =>
      match answer with
      | FetchRejects error =>
          let '(result, this) := catch_error this lyricsKey error in
          (this, AwaitLoadLRC env lyricsKey result)
      | FetchResponse false _ =>
          (emit (EvLogNotFound lyricsKey) this,
           AwaitLoadLRC env lyricsKey (Normal JSNull))
      | FetchResponse true body => (this, AwaitText env lyricsKey body)
      end
  | AwaitText env lyricsKey body =>
      match body with
      | BodyRejects error =>
          let '(result, this) := catch_error this lyricsKey error in
          (this, AwaitLoadLRC env lyricsKey result)
      | BodyText lrcContent =>
          let lyrics := parseLRC lrcContent in
          if (0 <? Z.of_nat (length lyrics))%Z then
            let this := cache_set this lyricsKey lyrics in
            (emit (EvLogLoaded lyricsKey (length lyrics)) this,
             AwaitLoadLRC env lyricsKey (Normal (JSArray lyrics)))
          else (this, AwaitLoadLRC env lyricsKey (Normal JSNull))
      end
  | AwaitLoadLRC env lyricsKey Throws => (this, Settled Throws)
  | AwaitLoadLRC env lyricsKey (Normal lrcLyrics) =>
      if truthy lrcLyrics && length_positive lrcLyrics
      then (this, Settled (Normal lrcLyrics))
      else
        let this := emit (EvLyricsData lyricsKey) this in
        if truthy (fallback_lines env lyricsKey)
        then (this, Settled (Normal (fallback_lines env lyricsKey)))
        else (this, Settled (Normal JSNull))
  | Settled result => (this, Settled result)
  end.

(** The calls of [pool] resumed in the order of [schedule], which names
    them by position. *)
Fixpoint interleave (this : LRCLoader) (pool : list Task)
  (schedule : list nat) : LRCLoader * list Task :=
  match schedule with
  | [] => (this, pool)
  | i :: schedule' =>
      match pool !! i with
      | Some t =>
          let '(this', t') := resume this t in
          interleave this' (<[i := t']> pool) schedule'
      | None => interleave this pool schedule'
      end
  end.

(** * Properties of the parser *)

(** ** The matchers return a suffix of their input *)

Lemma lit_Some c s r : lit c s = Some r -> s = c :: r.
Proof.
  destruct s as [|x s]; simpl; [discriminate|].
  destruct (N.eqb_spec x c); congruence.
Qed.

Lemma digits_Some n : forall s ds r,
  digits n s = Some (ds, r) ->
  s = ds ++ r /\ length ds = n /\ forallb is_digit ds = true.
Proof.
  induction n as [|n IH]; simpl; intros s ds r H.
  - injection H as <- <-. auto.
  - destruct s as [|c s]; [discriminate|].
    destruct (is_digit c) eqn:Hc; [|discriminate].
    destruct (digits n s) as [[ds' r']|] eqn:Hd; [|discriminate].
    injection H as <- <-.
    destruct (IH _ _ _ Hd) as (-> & <- & Hall).
    simpl. rewrite Hc, Hall. auto.
Qed.

Lemma separator_Some s r :
  separator s = Some r -> exists x, s = x :: r /\ (x = 0x2E \/ x = 0x3A).
Proof.
  destruct s as [|x s]; simpl; [discriminate|].
  destruct (N.eqb_spec x 0x2E); simpl.
  - intros [= <-]. eauto.
  - destruct (N.eqb_spec x 0x3A); [|discriminate]. intros [= <-]. eauto.
Qed.

Lemma fraction_close_Some n s f r :
  fraction_close n s = Some (f, r) ->
  exists x ds, f = Some ds /\ s = x :: ds ++ 0x5D :: r /\
    (x = 0x2E \/ x = 0x3A) /\ length ds = n /\ forallb is_digit ds = true.
Proof.
  unfold fraction_close.
  destruct (separator s) as [r0|] eqn:Hs; [|discriminate].
  destruct (digits n r0) as [[ds r1]|] eqn:Hd; [|discriminate].
  destruct (lit 0x5D r1) as [r2|] eqn:Hl; [|discriminate].
  intros [= <- <-].
  apply separator_Some in Hs as (x & -> & Hx).
  apply digits_Some in Hd as (-> & Hn & Hall).
  apply lit_Some in Hl as ->.
  exists x, ds. auto.
Qed.

(** The shape of a match: the bracketed minutes and seconds, then
    nothing or a separator with two or three digits. *)
Lemma timeRegex_match_Some s m rest :
  timeRegex_match s = Some (m, rest) ->
  exists tail,
    s = 0x5B :: match1 m ++ 0x3A :: match2 m ++ tail ++ 0x5D :: rest /\
    length (match1 m) = 2%nat /\ forallb is_digit (match1 m) = true /\
    length (match2 m) = 2%nat /\ forallb is_digit (match2 m) = true /\
    match match3 m with
    | None => tail = []
    | Some ds =>
        exists x, tail = x :: ds /\ (x = 0x2E \/ x = 0x3A) /\
          (length ds = 2%nat \/ length ds = 3%nat) /\
          forallb is_digit ds = true
    end.
Proof.
  unfold timeRegex_match.
  destruct (lit 0x5B s) as [r0|] eqn:H0; [|discriminate].
  destruct (digits 2 r0) as [[mm r1]|] eqn:H1; [|discriminate].
  destruct (lit 0x3A r1) as [r2|] eqn:H2; [|discriminate].
  destruct (digits 2 r2) as [[ss r3]|] eqn:H3; [|discriminate].
  destruct (tail_close r3) as [[f r4]|] eqn:H4; [|discriminate].
  intros [= <- <-]. simpl.
  apply lit_Some in H0 as ->.
  apply digits_Some in H1 as (-> & Hmm & Hmd).
  apply lit_Some in H2 as ->.
  apply digits_Some in H3 as (-> & Hss & Hsd).
  unfold tail_close in H4.
  destruct (fraction_close 3 r3) as [[f3 q3]|] eqn:F3.
  { injection H4 as <- <-.
    apply fraction_close_Some in F3 as (x & ds & -> & -> & Hx & Hn & Hd).
    exists (x :: ds). rewrite <- ?app_assoc. simpl.
    repeat split; auto. exists x. auto. }
  destruct (fraction_close 2 r3) as [[f2 q2]|] eqn:F2.
  { injection H4 as <- <-.
    apply fraction_close_Some in F2 as (x & ds & -> & -> & Hx & Hn & Hd).
    exists (x :: ds). rewrite <- ?app_assoc. simpl.
    repeat split; auto. exists x. auto. }
  destruct (lit 0x5D r3) as [q|] eqn:Hl; [|discriminate].
  injection H4 as <- <-. apply lit_Some in Hl as ->.
  exists []. rewrite <- ?app_assoc. simpl. repeat split; auto.
Qed.

(** The captures are digit strings, as [parseInt10] expects. *)
Lemma timeRegex_match_digits s m rest :
  timeRegex_match s = Some (m, rest) ->
  forallb is_digit (match1 m) = true /\ forallb is_digit (match2 m) = true /\
  forall ds, match3 m = Some ds -> forallb is_digit ds = true.
Proof.
  intros H. apply timeRegex_match_Some in H as (tl & _ & _ & H1 & _ & H2 & H3).
  repeat split; auto. intros ds E. rewrite E in H3.
  destruct H3 as (x & _ & _ & _ & H3). exact H3.
Qed.

Lemma timeRegex_match_shorter s m rest :
  timeRegex_match s = Some (m, rest) -> (length rest + 7 <= length s)%nat.
Proof.
  intros H. apply timeRegex_match_Some in H as (tl & -> & H1 & _ & H2 & _).
  simpl. rewrite !length_app. simpl. rewrite !length_app. simpl. lia.
Qed.

Lemma timeRegex_exec_Some : forall s pre m rest,
  timeRegex_exec s = Some (pre, m, rest) ->
  exists s', s = pre ++ s' /\ timeRegex_match s' = Some (m, rest).
Proof.
  induction s as [|c s IH]; intros pre m rest; cbn [timeRegex_exec].
  - discriminate.
  - destruct (timeRegex_match (c :: s)) as [[m' r']|] eqn:E.
    + intros [= <- <- <-]. exists (c :: s). auto.
    + destruct (timeRegex_exec s) as [[[pre' m'] r']|] eqn:Hs; [|discriminate].
      intros [= <- <- <-].
      destruct (IH _ _ _ eq_refl) as (s' & -> & Hm). exists s'. auto.
Qed.

Lemma timeRegex_exec_shorter s pre m rest :
  timeRegex_exec s = Some (pre, m, rest) -> (length rest < length s)%nat.
Proof.
  intros H. apply timeRegex_exec_Some in H as (s' & -> & Hm).
  apply timeRegex_match_shorter in Hm. rewrite length_app. lia.
Qed.

(** ** The loops terminate within their fuel *)

Lemma exec_loop_fuel : forall fuel s,
  (length s <= fuel)%nat -> exec_loop fuel s = exec_loop (length s) s.
Proof.
  assert (H : forall n fuel fuel' s, (length s <= n)%nat ->
    (length s <= fuel)%nat -> (length s <= fuel')%nat ->
    exec_loop fuel s = exec_loop fuel' s).
  { induction n as [|n IH]; intros fuel fuel' s Hn Hf Hf'.
    - destruct s; [|simpl in Hn; lia].
      destruct fuel, fuel'; reflexivity.
    - destruct (timeRegex_exec s) as [[[pre m] rest]|] eqn:Hs.
      + pose proof (timeRegex_exec_shorter _ _ _ _ Hs) as Hlt.
        destruct fuel as [|fuel]; [lia|]. destruct fuel' as [|fuel']; [lia|].
        simpl. rewrite Hs. f_equal. apply IH; lia.
      + destruct fuel, fuel'; simpl; rewrite ?Hs; reflexivity. }
  intros fuel s Hf. apply (H (length s)); lia.
Qed.

Lemma replace_loop_fuel : forall fuel s,
  (length s <= fuel)%nat -> replace_loop fuel s = replace_loop (length s) s.
Proof.
  assert (H : forall n fuel fuel' s, (length s <= n)%nat ->
    (length s <= fuel)%nat -> (length s <= fuel')%nat ->
    replace_loop fuel s = replace_loop fuel' s).
  { induction n as [|n IH]; intros fuel fuel' s Hn Hf Hf'.
    - destruct s; [|simpl in Hn; lia].
      destruct fuel, fuel'; reflexivity.
    - destruct (timeRegex_exec s) as [[[pre m] rest]|] eqn:Hs.
      + pose proof (timeRegex_exec_shorter _ _ _ _ Hs) as Hlt.
        destruct fuel as [|fuel]; [lia|]. destruct fuel' as [|fuel']; [lia|].
        simpl. rewrite Hs. f_equal. apply IH; lia.
      + destruct fuel, fuel'; simpl; rewrite ?Hs; reflexivity. }
  intros fuel s Hf. apply (H (length s)); lia.
Qed.

(** The loops, one iteration unfolded. *)
Lemma timestamps_of_eq s :
  timestamps_of s =
  match timeRegex_exec s with
  | Some (_, m, rest) => timestamp_of m :: timestamps_of rest
  | None => []
  end.
Proof.
  unfold timestamps_of.
  destruct (timeRegex_exec s) as [[[pre m] rest]|] eqn:Hs.
  - pose proof (timeRegex_exec_shorter _ _ _ _ Hs) as Hlt.
    destruct (length s) as [|n] eqn:Hn; [lia|].
    simpl. rewrite Hs. f_equal. apply exec_loop_fuel. lia.
  - destruct (length s); simpl; rewrite ?Hs; reflexivity.
Qed.

Lemma remove_timestamps_eq s :
  remove_timestamps s =
  match timeRegex_exec s with
  | Some (pre, _, rest) => pre ++ remove_timestamps rest
  | None => s
  end.
Proof.
  unfold remove_timestamps.
  destruct (timeRegex_exec s) as [[[pre m] rest]|] eqn:Hs.
  - pose proof (timeRegex_exec_shorter _ _ _ _ Hs) as Hlt.
    destruct (length s) as [|n] eqn:Hn; [lia|].
    simpl. rewrite Hs. f_equal. apply replace_loop_fuel. lia.
  - destruct (length s); simpl; rewrite ?Hs; reflexivity.
Qed.

(** ** What a line contributes *)

Lemma fold_left_push {A B : Type} (f : A -> B) (l : list A) (acc : list B) :
  fold_left (fun acc x => acc ++ [f x]) l acc = acc ++ List.map f l.
Proof.
  revert acc. induction l as [|x l IH]; intros acc; simpl.
  - now rewrite app_nil_r.
  - rewrite IH, <- app_assoc. reflexivity.
Qed.

Lemma process_line_eq lyrics line :
  process_line lyrics line = lyrics ++ line_entries line.
Proof.
  unfold process_line, line_entries.
  destruct (is_metadata line); [now rewrite app_nil_r|].
  destruct (is_empty (trim line)); [now rewrite app_nil_r|].
  apply fold_left_push.
Qed.

Lemma fold_process_line lines : forall lyrics,
  fold_left process_line lines lyrics
  = lyrics ++ flat_map line_entries lines.
Proof.
  induction lines as [|l lines IH]; intros lyrics; simpl.
  - now rewrite app_nil_r.
  - rewrite IH, process_line_eq, <- app_assoc. reflexivity.
Qed.

Lemma collect_eq lrcContent :
  collect lrcContent = flat_map line_entries (split_lines lrcContent).
Proof. unfold collect. now rewrite fold_process_line. Qed.

(** ** Sorting *)

Lemma Forall_sort_insert (P : LyricLine -> Prop) x l :
  P x -> Forall P l -> Forall P (sort_insert by_time x l).
Proof.
  intros Hx Hl. induction Hl as [|y l Hy Hl IH]; simpl.
  - constructor; auto.
  - destruct (by_time x y <=? 0)%Z; repeat constructor; auto.
Qed.

Lemma sort_insert_sorted x l :
  StronglySorted le_time l -> StronglySorted le_time (sort_insert by_time x l).
Proof.
  induction 1 as [|y l Hs IH Hy]; simpl.
  - repeat constructor.
  - destruct (Z.leb_spec (by_time x y) 0) as [Hle|Hgt]; unfold by_time in *.
    + constructor; [constructor; auto|].
      constructor; [unfold le_time; lia|].
      eapply List.Forall_impl; [|exact Hy]. unfold le_time. intros; lia.
    + constructor; [exact IH|].
      apply Forall_sort_insert; [unfold le_time; lia|exact Hy].
Qed.

Lemma Array_sort_sorted l : StronglySorted le_time (Array_sort by_time l).
Proof.
  induction l as [|x l IH]; simpl; [constructor|].
  now apply sort_insert_sorted.
Qed.

Lemma at_time_sort_insert t x l :
  at_time t (sort_insert by_time x l) = at_time t (x :: l).
Proof.
  induction l as [|y l IH]; [reflexivity|]. simpl.
  destruct (Z.leb_spec (by_time x y) 0) as [Hle|Hgt]; [reflexivity|].
  unfold by_time in Hgt. simpl. simpl in IH. rewrite IH.
  destruct (Z.eqb_spec (time x) t), (Z.eqb_spec (time y) t);
    try reflexivity; lia.
Qed.

(** Stability: the entries of one time keep their order. *)
Lemma at_time_Array_sort t l :
  at_time t (Array_sort by_time l) = at_time t l.
Proof.
  induction l as [|x l IH]; [reflexivity|]. simpl Array_sort.
  rewrite at_time_sort_insert. simpl. now rewrite IH.
Qed.

Lemma Array_sort_Permutation l : Permutation (Array_sort by_time l) l.
Proof.
  induction l as [|x l IH]; simpl; [constructor|].
  transitivity (x :: Array_sort by_time l); [|now constructor].
  clear IH. induction (Array_sort by_time l) as [|y s IH]; simpl.
  - reflexivity.
  - destruct (by_time x y <=? 0)%Z; [reflexivity|].
    rewrite IH. apply perm_swap.
Qed.

Lemma parseLRC_eq lrcContent :
  parseLRC lrcContent
  = leading (sorted_lyrics lrcContent) ++ sorted_lyrics lrcContent.
Proof.
  unfold parseLRC, leading.
  destruct (sorted_lyrics lrcContent) as [|first l]; [reflexivity|].
  destruct (time first >? 2)%Z; reflexivity.
Qed.

(** C1: for every input, the result of [parseLRC] is in non-decreasing
    order of [time], and for each time the entries with that time are,
    in order, the synthetic leading entry (when there is one at that time)
    followed by the entries with that time in the order in which the
    lines of the input produced them. *)
Theorem parseLRC_sorted_stable (lrcContent : jsstring) :
  StronglySorted le_time (parseLRC lrcContent) /\
  forall t : Z,
    at_time t (parseLRC lrcContent)
    = at_time t (leading (sorted_lyrics lrcContent) ++ collect lrcContent).
Proof.
  rewrite parseLRC_eq. split.
  - pose proof (Array_sort_sorted (collect lrcContent)) as Hs.
    fold (sorted_lyrics lrcContent) in Hs.
    unfold leading.
    destruct (sorted_lyrics lrcContent) as [|first l]; [constructor|].
    destruct (Z.gtb_spec (time first) 2) as [Hgt|Hle]; [|exact Hs].
    simpl. constructor; [exact Hs|].
    apply StronglySorted_inv in Hs as [_ Hall].
    constructor; [unfold le_time; simpl; lia|].
    eapply List.Forall_impl; [|exact Hall].
    unfold le_time. simpl. intros; lia.
  - intros t. unfold at_time. rewrite !List.filter_app. f_equal.
    apply at_time_Array_sort.
Qed.

(** ** Rounding *)

Lemma Qfloor_half_up (n ms : Z) :
  (0 <= ms < 1000)%Z ->
  Qfloor (inject_Z n + Qmake ms 1000 + (1 # 2))
  = (n + if (500 <=? ms)%Z then 1 else 0)%Z.
Proof.
  intros H. unfold Qfloor, Qplus, inject_Z. cbn [Qnum Qden].
  change (Z.pos (1 * 1000 * 2)) with 2000%Z.
  change (Z.pos (1 * 1000)) with 1000%Z.
  destruct (Z.leb_spec 500 ms); symmetry.
  - apply Z.div_unique with (r := (2 * ms - 1000)%Z); lia.
  - apply Z.div_unique with (r := (2 * ms + 1000)%Z); lia.
Qed.

(** ** Tokens and the matcher *)

Lemma is_digit_code d : is_digit (Digit_code d) = true.
Proof. destruct d; reflexivity. Qed.

Lemma digit_value_code d : digit_value (Digit_code d) = Digit_value d.
Proof. destruct d; reflexivity. Qed.

Lemma Digit_value_range d : (0 <= Digit_value d <= 9)%Z.
Proof. destruct d; simpl; lia. Qed.

Lemma is_digit_Digit c : is_digit c = true -> exists d, c = Digit_code d.
Proof.
  unfold is_digit. intros H. apply andb_true_iff in H as [H1 H2].
  apply N.leb_le in H1, H2.
  assert (E : c = 48 \/ c = 49 \/ c = 50 \/ c = 51 \/ c = 52 \/ c = 53 \/
              c = 54 \/ c = 55 \/ c = 56 \/ c = 57) by lia.
  destruct E as [->|[->|[->|[->|[->|[->|[->|[->|[->| ->]]]]]]]]].
  - now exists D0.
  - now exists D1.
  - now exists D2.
  - now exists D3.
  - now exists D4.
  - now exists D5.
  - now exists D6.
  - now exists D7.
  - now exists D8.
  - now exists D9.
Qed.

Lemma lit_code c s : lit c (c :: s) = Some s.
Proof. simpl. now rewrite N.eqb_refl. Qed.

Lemma separator_code x s : separator (Separator_code x :: s) = Some s.
Proof. destruct x; reflexivity. Qed.

Lemma digits2_code a b s :
  digits 2 (Digit_code a :: Digit_code b :: s)
  = Some ([Digit_code a; Digit_code b], s).
Proof. simpl. now rewrite !is_digit_code. Qed.

Lemma digits3_code a b c s :
  digits 3 (Digit_code a :: Digit_code b :: Digit_code c :: s)
  = Some ([Digit_code a; Digit_code b; Digit_code c], s).
Proof. simpl. now rewrite !is_digit_code. Qed.

Lemma tail_close_render f rest :
  tail_close (render_fraction f ++ 0x5D :: rest)
  = Some (match f with
          | NoFraction => None
          | Fraction2 _ f1 f2 => Some [Digit_code f1; Digit_code f2]
          | Fraction3 _ f1 f2 f3 =>
              Some [Digit_code f1; Digit_code f2; Digit_code f3]
          end, rest).
Proof.
  destruct f as [|x f1 f2|x f1 f2 f3]; unfold tail_close, fraction_close.
  - reflexivity.
  - cbn [render_fraction app]. rewrite separator_code.
    assert (E : digits 3 (Digit_code f1 :: Digit_code f2 :: 0x5D :: rest)
                = None) by (simpl; now rewrite !is_digit_code).
    rewrite E, digits2_code, lit_code. reflexivity.
  - cbn [render_fraction app]. rewrite separator_code, digits3_code, lit_code.
    reflexivity.
Qed.

(** The pattern accepts every token, with the expected captures. *)
Lemma timeRegex_match_render tok rest :
  timeRegex_match (render tok ++ rest) = Some (captures tok, rest).
Proof.
  destruct tok as [m1 m2 s1 s2 f]. unfold timeRegex_match, render, captures.
  cbn [tok_m1 tok_m2 tok_s1 tok_s2 tok_fraction app].
  rewrite lit_code, digits2_code, lit_code, digits2_code.
  rewrite <- app_assoc. cbn [app]. rewrite tail_close_render. reflexivity.
Qed.

(** The pattern accepts nothing but tokens. *)
Lemma timeRegex_match_token s m rest :
  timeRegex_match s = Some (m, rest) ->
  exists tok, s = render tok ++ rest /\ m = captures tok.
Proof.
  intros H.
  apply timeRegex_match_Some in H as (tl & -> & L1 & A1 & L2 & A2 & H3).
  destruct m as [mm ss f]. cbn [match1 match2 match3] in *.
  destruct mm as [|a [|b [|? ?]]]; try discriminate L1.
  destruct ss as [|c [|d [|? ?]]]; try discriminate L2.
  cbn [forallb] in A1, A2.
  apply andb_true_iff in A1 as [Ha A1]. apply andb_true_iff in A1 as [Hb _].
  apply andb_true_iff in A2 as [Hc A2]. apply andb_true_iff in A2 as [Hd _].
  apply is_digit_Digit in Ha as [m1 ->], Hb as [m2 ->].
  apply is_digit_Digit in Hc as [s1 ->], Hd as [s2 ->].
  destruct f as [ds|].
  - destruct H3 as (x & -> & Hx & Hlen & Hds).
    assert (exists sep, x = Separator_code sep) as [sep ->].
    { destruct Hx as [->| ->]; [now exists Dot|now exists Colon]. }
    destruct Hlen as [Hlen|Hlen].
    + destruct ds as [|f1 [|f2 [|? ?]]]; try discriminate Hlen.
      cbn [forallb] in Hds.
      apply andb_true_iff in Hds as [H1 Hds].
      apply andb_true_iff in Hds as [H2 _].
      apply is_digit_Digit in H1 as [g1 ->], H2 as [g2 ->].
      exists {| tok_m1 := m1; tok_m2 := m2; tok_s1 := s1; tok_s2 := s2;
                tok_fraction := Fraction2 sep g1 g2 |}.
      split; reflexivity.
    + destruct ds as [|f1 [|f2 [|f3 [|? ?]]]]; try discriminate Hlen.
      cbn [forallb] in Hds.
      apply andb_true_iff in Hds as [H1 Hds].
      apply andb_true_iff in Hds as [H2 Hds].
      apply andb_true_iff in Hds as [H3 _].
      apply is_digit_Digit in H1 as [g1 ->], H2 as [g2 ->], H3 as [g3 ->].
      exists {| tok_m1 := m1; tok_m2 := m2; tok_s1 := s1; tok_s2 := s2;
                tok_fraction := Fraction3 sep g1 g2 g3 |}.
      split; reflexivity.
  - subst tl.
    exists {| tok_m1 := m1; tok_m2 := m2; tok_s1 := s1; tok_s2 := s2;
              tok_fraction := NoFraction |}.
    split; reflexivity.
Qed.

(** A fraction of a single digit is not accepted. *)
Lemma timeRegex_match_render_short m1 m2 s1 s2 x f rest :
  timeRegex_match (render_short m1 m2 s1 s2 x f ++ rest) = None.
Proof.
  unfold timeRegex_match, render_short. cbn [app].
  rewrite lit_code, digits2_code, lit_code, digits2_code.
  unfold tail_close, fraction_close. rewrite separator_code.
  assert (E3 : digits 3 (Digit_code f :: 0x5D :: rest) = None)
    by (simpl; now rewrite is_digit_code).
  assert (E2 : digits 2 (Digit_code f :: 0x5D :: rest) = None)
    by (simpl; now rewrite is_digit_code).
  rewrite E3, E2. destruct x; reflexivity.
Qed.

(** ** The time of a token *)

Lemma parseInt10_two a b :
  parseInt10 [Digit_code a; Digit_code b]
  = (10 * Digit_value a + Digit_value b)%Z.
Proof. unfold parseInt10. simpl. rewrite !digit_value_code. lia. Qed.

Lemma parseInt10_three a b c :
  parseInt10 [Digit_code a; Digit_code b; Digit_code c]
  = (100 * Digit_value a + 10 * Digit_value b + Digit_value c)%Z.
Proof. unfold parseInt10. simpl. rewrite !digit_value_code. lia. Qed.

Lemma milliseconds_captures tok :
  milliseconds (match3 (captures tok)) = Token_milliseconds tok.
Proof.
  destruct tok as [m1 m2 s1 s2 [|x f1 f2|x f1 f2 f3]];
    unfold milliseconds, Token_milliseconds, padEnd0, slice0; simpl.
  - reflexivity.
  - change [Digit_code f1; Digit_code f2; 48]
      with [Digit_code f1; Digit_code f2; Digit_code D0].
    rewrite parseInt10_three. simpl. lia.
  - apply parseInt10_three.
Qed.

Lemma Token_milliseconds_range tok : (0 <= Token_milliseconds tok < 1000)%Z.
Proof.
  destruct tok as [m1 m2 s1 s2 [|x f1 f2|x f1 f2 f3]];
    unfold Token_milliseconds; simpl.
  - lia.
  - pose proof (Digit_value_range f1). pose proof (Digit_value_range f2). lia.
  - pose proof (Digit_value_range f1). pose proof (Digit_value_range f2).
    pose proof (Digit_value_range f3). lia.
Qed.

Lemma timestamp_of_captures tok : timestamp_of (captures tok) = Token_time tok.
Proof.
  unfold timestamp_of, Math_round, totalSeconds, Token_time.
  rewrite milliseconds_captures.
  destruct tok as [m1 m2 s1 s2 f]. cbn [captures match1 match2].
  rewrite !parseInt10_two. reflexivity.
Qed.

Lemma Token_time_half_up tok :
  Token_time tok
  = (Token_minutes tok * 60 + Token_seconds tok
     + if (500 <=? Token_milliseconds tok)%Z then 1 else 0)%Z.
Proof. apply Qfloor_half_up, Token_milliseconds_range. Qed.

(** ** Scanning a line *)

Lemma timeRegex_match_head c s :
  (c =? 0x5B) = false -> timeRegex_match (c :: s) = None.
Proof. intros H. unfold timeRegex_match, lit. now rewrite H. Qed.

Lemma timeRegex_exec_render tok rest :
  timeRegex_exec (render tok ++ rest) = Some ([], captures tok, rest).
Proof.
  pose proof (timeRegex_match_render tok rest) as H.
  destruct (render tok ++ rest) as [|c s] eqn:E.
  - discriminate H.
  - cbn [timeRegex_exec]. now rewrite H.
Qed.

Lemma timeRegex_exec_app_plain pre s :
  no_bracket pre = true ->
  timeRegex_exec (pre ++ s)
  = match timeRegex_exec s with
    | Some (p, m, r) => Some (pre ++ p, m, r)
    | None => None
    end.
Proof.
  induction pre as [|c pre IH]; intros H.
  - simpl. destruct (timeRegex_exec s) as [[[p m] r]|]; reflexivity.
  - simpl in H. apply andb_true_iff in H as [Hc H].
    apply negb_true_iff in Hc.
    cbn [app timeRegex_exec]. rewrite (timeRegex_match_head _ _ Hc), (IH H).
    destruct (timeRegex_exec s) as [[[p m] r]|]; reflexivity.
Qed.

Lemma timeRegex_exec_plain s : no_bracket s = true -> timeRegex_exec s = None.
Proof.
  intros H. pose proof (timeRegex_exec_app_plain s [] H) as E.
  now rewrite app_nil_r in E.
Qed.

Lemma timestamps_of_render tok rest :
  timestamps_of (render tok ++ rest) = Token_time tok :: timestamps_of rest.
Proof.
  rewrite timestamps_of_eq, timeRegex_exec_render, timestamp_of_captures.
  reflexivity.
Qed.

Lemma remove_timestamps_render tok rest :
  remove_timestamps (render tok ++ rest) = remove_timestamps rest.
Proof. rewrite remove_timestamps_eq, timeRegex_exec_render. reflexivity. Qed.

Lemma timestamps_of_app_plain pre s :
  no_bracket pre = true -> timestamps_of (pre ++ s) = timestamps_of s.
Proof.
  intros H. rewrite (timestamps_of_eq (pre ++ s)), (timestamps_of_eq s).
  rewrite (timeRegex_exec_app_plain _ _ H).
  destruct (timeRegex_exec s) as [[[p m] r]|]; reflexivity.
Qed.

Lemma remove_timestamps_app_plain pre s :
  no_bracket pre = true ->
  remove_timestamps (pre ++ s) = pre ++ remove_timestamps s.
Proof.
  intros H. rewrite (remove_timestamps_eq (pre ++ s)), (remove_timestamps_eq s).
  rewrite (timeRegex_exec_app_plain _ _ H).
  destruct (timeRegex_exec s) as [[[p m] r]|]; [|reflexivity].
  now rewrite app_assoc.
Qed.

Lemma timestamps_of_pieces ps :
  forallb plain_piece ps = true ->
  timestamps_of (render_pieces ps) = List.map Token_time (tokens_of ps).
Proof.
  induction ps as [|[s|tok] ps IH]; intros H.
  - reflexivity.
  - simpl in H. apply andb_true_iff in H as [Hs H]. simpl.
    rewrite (timestamps_of_app_plain _ _ Hs). auto.
  - simpl in H. cbn [render_pieces render_piece tokens_of List.map].
    rewrite timestamps_of_render, (IH H). reflexivity.
Qed.

Lemma remove_timestamps_pieces ps :
  forallb plain_piece ps = true ->
  remove_timestamps (render_pieces ps) = texts_of ps.
Proof.
  induction ps as [|[s|tok] ps IH]; intros H.
  - reflexivity.
  - simpl in H. apply andb_true_iff in H as [Hs H]. simpl.
    rewrite (remove_timestamps_app_plain _ _ Hs), (IH H). reflexivity.
  - simpl in H. cbn [render_pieces render_piece texts_of].
    rewrite remove_timestamps_render. auto.
Qed.

(** ** Trimming *)

Lemma trimStart_nil s : trimStart s = [] <-> forallb is_space s = true.
Proof.
  induction s as [|c s IH]; simpl; [tauto|].
  destruct (is_space c); simpl; [exact IH|]. split; discriminate.
Qed.

Lemma trimStart_spaces s :
  forallb is_space (trimStart s) = true -> forallb is_space s = true.
Proof.
  induction s as [|c s IH]; simpl; [auto|].
  destruct (is_space c) eqn:E; simpl; [exact IH|].
  rewrite E. discriminate.
Qed.

Lemma forallb_rev' {A : Type} (f : A -> bool) (l : list A) :
  forallb f (rev l) = true -> forallb f l = true.
Proof.
  rewrite !forallb_forall. intros H x Hx. apply H. now apply in_rev in Hx.
Qed.

Lemma trim_nil s : trim s = [] <-> forallb is_space s = true.
Proof.
  unfold trim, trimEnd. split.
  - intros H. apply (f_equal (@rev N)) in H. rewrite rev_involutive in H.
    simpl in H. apply trimStart_nil, forallb_rev' in H.
    now apply trimStart_spaces.
  - intros H. apply trimStart_nil in H. rewrite H. reflexivity.
Qed.

Lemma trim_not_nil s c :
  In c s -> is_space c = false -> is_empty (trim s) = false.
Proof.
  intros Hin Hc. destruct (trim s) eqn:E; [|reflexivity].
  apply trim_nil in E. rewrite forallb_forall in E.
  rewrite (E _ Hin) in Hc. discriminate.
Qed.

(** ** Lines of tokens and text are neither metadata nor blank *)

Lemma is_metadata_render tok rest : is_metadata (render tok ++ rest) = false.
Proof. destruct tok as [[] m2 s1 s2 f]; reflexivity. Qed.

Lemma is_metadata_head c s :
  (c =? 0x5B) = false -> is_metadata (c :: s) = false.
Proof. intros H. unfold is_metadata. now rewrite H. Qed.

Lemma is_metadata_pieces ps :
  forallb plain_piece ps = true -> is_metadata (render_pieces ps) = false.
Proof.
  induction ps as [|[s|tok] ps IH]; intros H.
  - reflexivity.
  - simpl in H. apply andb_true_iff in H as [Hs H]. simpl.
    destruct s as [|c s]; [exact (IH H)|].
    simpl in Hs. apply andb_true_iff in Hs as [Hc _].
    apply negb_true_iff in Hc. now apply is_metadata_head.
  - apply is_metadata_render.
Qed.

Lemma In_bracket_pieces ps :
  tokens_of ps <> [] -> In 0x5B (render_pieces ps).
Proof.
  induction ps as [|[s|tok] ps IH]; intros H.
  - now elim H.
  - simpl. apply in_or_app. right. auto.
  - simpl. left. reflexivity.
Qed.

Lemma line_entries_pieces ps :
  forallb plain_piece ps = true ->
  line_entries (render_pieces ps)
  = List.map (fun tok => {| time := Token_time tok; text := shared_text ps |})
      (tokens_of ps).
Proof.
  intros H. unfold line_entries, textPart_of, shared_text.
  rewrite (is_metadata_pieces _ H), (timestamps_of_pieces _ H),
    (remove_timestamps_pieces _ H).
  destruct (tokens_of ps) as [|tok toks] eqn:E.
  - simpl. now destruct (is_empty _).
  - assert (Hin : In 0x5B (render_pieces ps))
      by (apply In_bracket_pieces; now rewrite E).
    rewrite (trim_not_nil _ _ Hin eq_refl), List.map_map. reflexivity.
Qed.

Lemma no_bracket_spaces s : forallb is_space s = true -> no_bracket s = true.
Proof.
  unfold no_bracket. rewrite !forallb_forall. intros H c Hc.
  specialize (H c Hc). destruct (N.eqb_spec c 0x5B) as [->|]; [|reflexivity].
  discriminate H.
Qed.

(** Outside metadata lines, a line contributes one entry per match of the
    pattern, all with the text of the line. *)
Lemma line_entries_shared line :
  is_metadata line = false ->
  line_entries line
  = List.map (fun t => {| time := t; text := textPart_of line |})
      (timestamps_of line).
Proof.
  intros Hm. unfold line_entries. rewrite Hm.
  destruct (trim line) eqn:E; [|reflexivity]. simpl.
  apply trim_nil, no_bracket_spaces, timeRegex_exec_plain in E.
  rewrite timestamps_of_eq, E. reflexivity.
Qed.

Lemma code_not_bracket d : negb (Digit_code d =? 0x5B) = true.
Proof. destruct d; reflexivity. Qed.

Lemma timeRegex_exec_cons c s :
  timeRegex_match (c :: s) = None ->
  timeRegex_exec (c :: s)
  = match timeRegex_exec s with
    | Some (p, m, r) => Some (c :: p, m, r)
    | None => None
    end.
Proof. intros H. cbn [timeRegex_exec]. now rewrite H. Qed.

Lemma timestamps_of_render_short m1 m2 s1 s2 x f rest :
  timestamps_of (render_short m1 m2 s1 s2 x f ++ rest) = timestamps_of rest.
Proof.
  pose proof (timeRegex_match_render_short m1 m2 s1 s2 x f rest) as Hm.
  rewrite (timestamps_of_eq (_ ++ rest)), (timestamps_of_eq rest).
  unfold render_short in *.
  change ([91; Digit_code m1; Digit_code m2; 58; Digit_code s1;
           Digit_code s2; Separator_code x; Digit_code f; 93] ++ rest)
    with (91 :: [Digit_code m1; Digit_code m2; 58; Digit_code s1;
                 Digit_code s2; Separator_code x; Digit_code f; 93] ++ rest)
    in *.
  rewrite (timeRegex_exec_cons _ _ Hm), timeRegex_exec_app_plain.
  - destruct (timeRegex_exec rest) as [[[p m] r]|]; reflexivity.
  - simpl. rewrite !code_not_bracket. destruct x; reflexivity.
Qed.

(** * The claims about the parser *)

(** C2, as the code has it: every match of the timestamp pattern is one of
    the tokens [[MM:SS]], [[MM:SS.ff]], [[MM:SS.fff]] (with [.] or [:]
    before the fraction), and the time pushed for it is
    [MM * 60 + SS + ms / 1000] rounded to the nearest second with halves
    up, where a fraction of two digits [ff] counts [ff0] milliseconds
    ([.50] is 500 ms, [.05] is 50 ms); the entry is the first one of the
    line; every such token is matched.  The line ["[00:05.50]Hello"]
    contributes the single entry [{time: 6, text: "Hello"}], and
    [parseLRC] returns it after the synthetic leading entry, since 6 > 2. *)
Theorem matched_timestamp_time (s : jsstring) (m : TimeMatch)
  (rest : jsstring) :
  timeRegex_match s = Some (m, rest) ->
  (exists tok : Token,
     s = render tok ++ rest /\ m = captures tok /\
     milliseconds (match3 m) = Token_milliseconds tok /\
     timestamp_of m = Token_time tok /\
     Token_time tok
     = (Token_minutes tok * 60 + Token_seconds tok
        + if (500 <=? Token_milliseconds tok)%Z then 1 else 0)%Z /\
     line_entries s
     = {| time := Token_time tok; text := textPart_of s |}
       :: List.map (fun t => {| time := t; text := textPart_of s |})
            (timestamps_of rest)) /\
  (forall tok rest',
     timeRegex_match (render tok ++ rest') = Some (captures tok, rest')) /\
  milliseconds (Some (js "50")) = 500%Z /\
  milliseconds (Some (js "05")) = 50%Z /\
  line_entries (js "[00:05.50]Hello") = [{| time := 6; text := js "Hello" |}] /\
  parseLRC (js "[00:05.50]Hello")
  = [{| time := 0; text := music_note |}; {| time := 6; text := js "Hello" |}].
Proof.
  intros H. split; [|split; [|repeat split]].
  - destruct (timeRegex_match_token _ _ _ H) as (tok & -> & ->).
    exists tok. repeat split.
    + apply milliseconds_captures.
    + apply timestamp_of_captures.
    + apply Token_time_half_up.
    + rewrite line_entries_shared by apply is_metadata_render.
      rewrite timestamps_of_render. reflexivity.
  - apply timeRegex_match_render.
Qed.

Lemma matched_timestamp_time_witness :
  timeRegex_match (js "[00:05.50]Hello")
  = Some ({| match1 := js "00"; match2 := js "05"; match3 := Some (js "50") |},
          js "Hello") /\
  exists tok : Token,
    js "[00:05.50]Hello" = render tok ++ js "Hello" /\
    timestamp_of (captures tok) = 6%Z.
Proof.
  split; [reflexivity|].
  destruct (matched_timestamp_time (js "[00:05.50]Hello")
              {| match1 := js "00"; match2 := js "05";
                 match3 := Some (js "50") |} (js "Hello") eq_refl)
    as [(tok & Hs & Hm & _ & Ht & _) _].
  exists tok. split; [exact Hs|]. rewrite <- Hm. reflexivity.
Defined.

(** C2, as the claim has it, fails: [parseLRC("[00:05.50]Hello")] is not
    the single entry [{time: 6, text: "Hello"}]. *)
Lemma parseLRC_half_second_two_entries :
  parseLRC (js "[00:05.50]Hello") <> [{| time := 6; text := js "Hello" |}].
Proof. vm_compute. discriminate. Qed.

(** C3, as the code has it: a token whose fraction is a single digit is
    not matched by the pattern, which asks for two or three fraction
    digits, and contributes no time to its line; ["[00:05.5]Hello"] yields
    no entry.  The right-padding to three digits applies to fractions of
    two digits. *)
Theorem single_digit_fraction_not_matched (m1 m2 s1 s2 : Digit)
  (x : Separator) (f : Digit) (rest : jsstring) :
  timeRegex_match (render_short m1 m2 s1 s2 x f ++ rest) = None /\
  timestamps_of (render_short m1 m2 s1 s2 x f ++ rest) = timestamps_of rest /\
  parseLRC (js "[00:05.5]Hello") = [] /\
  forall f1 f2 : Digit,
    milliseconds (Some [Digit_code f1; Digit_code f2])
    = ((10 * Digit_value f1 + Digit_value f2) * 10)%Z.
Proof.
  split; [apply timeRegex_match_render_short|].
  split; [apply timestamps_of_render_short|].
  split; [reflexivity|].
  intros f1 f2.
  apply (milliseconds_captures
           {| tok_m1 := D0; tok_m2 := D0; tok_s1 := D0; tok_s2 := D0;
              tok_fraction := Fraction2 Dot f1 f2 |}).
Qed.

(** C3, as the claim has it, fails: ["[00:05.5]Hello"] yields no entry
    with time 6. *)
Lemma single_digit_fraction_no_entry :
  ~ exists e : LyricLine,
      In e (parseLRC (js "[00:05.5]Hello")) /\ time e = 6%Z.
Proof. intros (e & Hin & _). vm_compute in Hin. exact Hin. Qed.

Lemma leading_note_iff lyrics :
  leading lyrics = [leading_note]
  <-> exists first rest, lyrics = first :: rest /\ (2 < time first)%Z.
Proof.
  unfold leading. destruct lyrics as [|first rest].
  - split; [discriminate|]. intros (? & ? & ? & _). discriminate.
  - destruct (Z.gtb_spec (time first) 2) as [Hgt|Hle].
    + split; [|reflexivity]. intros _. exists first, rest. split; [auto|lia].
    + split; [discriminate|]. intros (f & r & [= <- <-] & Hlt). lia.
Qed.

Lemma leading_cases lyrics :
  leading lyrics = [] \/ leading lyrics = [leading_note].
Proof.
  unfold leading. destruct lyrics as [|first rest]; [auto|].
  destruct (time first >? 2)%Z; auto.
Qed.

(** The first sorted entry is late exactly when there are entries and all
    of them are. *)
Lemma sorted_first_late lrcContent :
  (exists first rest,
     sorted_lyrics lrcContent = first :: rest /\ (2 < time first)%Z)
  <-> collect lrcContent <> [] /\
      Forall (fun e => (2 < time e)%Z) (collect lrcContent).
Proof.
  unfold sorted_lyrics.
  pose proof (Array_sort_sorted (collect lrcContent)) as Hs.
  pose proof (Array_sort_Permutation (collect lrcContent)) as Hp.
  destruct (Array_sort by_time (collect lrcContent)) as [|first rest].
  - apply Permutation_nil in Hp. rewrite Hp. split.
    + intros (? & ? & ? & _). discriminate.
    + intros [H _]. now elim H.
  - split.
    + intros (f & r & [= <- <-] & Hlt). split.
      * intros E. rewrite E in Hp. apply Permutation_sym in Hp.
        apply Permutation_nil in Hp. discriminate.
      * apply (Permutation_Forall Hp).
        apply StronglySorted_inv in Hs as [_ Hall].
        constructor; [exact Hlt|].
        eapply List.Forall_impl; [|exact Hall].
        unfold le_time. intros; lia.
    + intros [_ Hall]. exists first, rest. split; [reflexivity|].
      apply Permutation_sym in Hp.
      apply (Permutation_Forall Hp) in Hall.
      now apply Forall_inv in Hall.
Qed.

(** C4: [parseLRC] returns the sorted entries with the synthetic entry
    [{time: 0, text: "♪"}] in front exactly when there is a first
    sorted entry and its time is greater than 2 (which is when there are
    entries and all of them are later than 2), and returns the sorted
    entries alone otherwise.  ["[ar:Someone]\n[00:05]Hi"] gives the
    synthetic entry and [{time: 5, text: "Hi"}], the metadata line giving
    nothing; an input whose earliest timestamp is [[00:01]] and an input
    without entries get no synthetic entry. *)
Theorem leading_note_rule (lrcContent : jsstring) :
  (parseLRC lrcContent = leading_note :: sorted_lyrics lrcContent
   <-> exists first rest,
         sorted_lyrics lrcContent = first :: rest /\ (2 < time first)%Z) /\
  (parseLRC lrcContent = sorted_lyrics lrcContent
   <-> ~ exists first rest,
           sorted_lyrics lrcContent = first :: rest /\ (2 < time first)%Z) /\
  ((exists first rest,
      sorted_lyrics lrcContent = first :: rest /\ (2 < time first)%Z)
   <-> collect lrcContent <> [] /\
       Forall (fun e => (2 < time e)%Z) (collect lrcContent)) /\
  line_entries (js "[ar:Someone]") = [] /\
  parseLRC (js "[ar:Someone]" ++ [0x0A] ++ js "[00:05]Hi")
  = [{| time := 0; text := music_note |}; {| time := 5; text := js "Hi" |}] /\
  parseLRC (js "[00:04]b" ++ [0x0A] ++ js "[00:01]a")
  = [{| time := 1; text := js "a" |}; {| time := 4; text := js "b" |}] /\
  parseLRC [] = [].
Proof.
  split; [|split; [|split; [apply sorted_first_late|repeat split]]].
  - rewrite <- leading_note_iff, parseLRC_eq.
    destruct (leading_cases (sorted_lyrics lrcContent)) as [E|E]; rewrite E.
    + split; [|discriminate]. simpl. intros H.
      apply (f_equal (@length _)) in H. simpl in H. lia.
    + split; reflexivity.
  - rewrite <- leading_note_iff, parseLRC_eq.
    destruct (leading_cases (sorted_lyrics lrcContent)) as [E|E]; rewrite E.
    + split; [discriminate|reflexivity].
    + split; [|intros H; now elim H]. simpl. intros H.
      apply (f_equal (@length _)) in H. simpl in H. lia.
Qed.

(** C6: a line that is not a metadata line contributes one entry per
    match of the timestamp pattern, all with the same text.  For a line
    made of tokens and bracket-free stretches of text these are the
    tokens, each with its time, and the text is the line without the
    tokens, trimmed (the placeholder when that is empty).
    ["[00:01][00:03]Same"] gives exactly [{time: 1, text: "Same"}] and
    [{time: 3, text: "Same"}]. *)
Theorem one_entry_per_token (line : jsstring) :
  is_metadata line = false ->
  (forall lyrics,
     process_line lyrics line
     = lyrics ++ List.map (fun t => {| time := t; text := textPart_of line |})
                   (timestamps_of line)) /\
  (is_empty (trim (remove_timestamps line)) = false ->
   textPart_of line = trim (remove_timestamps line)) /\
  (forall ps : list Piece,
     line = render_pieces ps -> forallb plain_piece ps = true ->
     remove_timestamps line = texts_of ps /\
     line_entries line
     = List.map
         (fun tok => {| time := Token_time tok; text := shared_text ps |})
         (tokens_of ps)) /\
  parseLRC (js "[00:01][00:03]Same")
  = [{| time := 1; text := js "Same" |}; {| time := 3; text := js "Same" |}].
Proof.
  intros Hm. split; [|split; [|split]].
  - intros lyrics. now rewrite process_line_eq, line_entries_shared.
  - unfold textPart_of. intros H. now rewrite H.
  - intros ps -> Hp. split.
    + now apply remove_timestamps_pieces.
    + now apply line_entries_pieces.
  - reflexivity.
Qed.

Lemma one_entry_per_token_witness :
  is_metadata (js "[00:01][00:03]Same") = false /\
  process_line [] (js "[00:01][00:03]Same")
  = [{| time := 1; text := js "Same" |}; {| time := 3; text := js "Same" |}].
Proof.
  split; [reflexivity|].
  destruct (one_entry_per_token (js "[00:01][00:03]Same") eq_refl)
    as (H & _).
  rewrite (H []). reflexivity.
Defined.

(** C7: when the text of a line is empty after removing the timestamp
    tokens and trimming, every entry that the line contributes has the
    placeholder ["•••"] as its text; the line ["[00:10]"]
    contributes the single entry [{time: 10, text: "•••"}]
    (which [parseLRC] returns after the synthetic leading entry). *)
Theorem empty_text_placeholder (line : jsstring) :
  trim (remove_timestamps line) = [] ->
  textPart_of line = placeholder /\
  (forall lyrics,
     exists new,
       process_line lyrics line = lyrics ++ new /\
       Forall (fun e => text e = placeholder) new) /\
  process_line [] (js "[00:10]") = [{| time := 10; text := placeholder |}] /\
  parseLRC (js "[00:10]")
  = [{| time := 0; text := music_note |};
     {| time := 10; text := placeholder |}].
Proof.
  intros H.
  assert (Ht : textPart_of line = placeholder)
    by (unfold textPart_of; now rewrite H).
  split; [exact Ht|]. split; [|split; reflexivity].
  intros lyrics. exists (line_entries line).
  split; [apply process_line_eq|].
  unfold line_entries. rewrite Ht.
  destruct (is_metadata line); [constructor|].
  destruct (is_empty (trim line)); [constructor|].
  apply List.Forall_forall. intros e He.
  apply in_map_iff in He as (t & <- & _). reflexivity.
Qed.

Lemma empty_text_placeholder_witness :
  trim (remove_timestamps (js "[00:10]")) = [] /\
  textPart_of (js "[00:10]") = placeholder.
Proof.
  split; [reflexivity|].
  exact (proj1 (empty_text_placeholder (js "[00:10]") eq_refl)).
Defined.

(** * Properties of the loader *)

Lemma cache_get_own this key lyrics :
  cache this !! key = Some lyrics -> cache_get this key = JSArray lyrics.
Proof. unfold cache_get. now intros ->. Qed.

Lemma cache_get_falsy this key :
  truthy (cache_get this key) = false
  <-> cache this !! key = None /\ inherited key = None.
Proof.
  unfold cache_get. destruct (cache this !! key); simpl.
  - split; [discriminate|]. intros [? _]. discriminate.
  - destruct (inherited key); simpl.
    + split; [discriminate|]. intros [_ ?]. discriminate.
    + tauto.
Qed.

Lemma length_positive_nonempty (l : list LyricLine) :
  l <> [] -> (0 <? Z.of_nat (length l))%Z = true.
Proof. destruct l; [congruence|]. reflexivity. Qed.

Lemma loadLRC_hit env this key :
  truthy (cache_get this key) = true ->
  loadLRC env this key = (Normal (cache_get this key), this).
Proof. unfold loadLRC. now intros ->. Qed.

Lemma loadLRC_stores env this key lyrics :
  stores env this key lyrics ->
  loadLRC env this key
  = (Normal (JSArray lyrics),
     emit (EvLogLoaded key (length lyrics))
       (cache_set (emit (EvFetch (lrc_url this key)) this) key lyrics)).
Proof.
  intros (_ & Hmiss & text & Hf & <- & Hne).
  unfold loadLRC. rewrite Hmiss. cbn [emit basePath lrc_url].
  fold (lrc_url this key). rewrite Hf.
  now rewrite (length_positive_nonempty _ Hne).
Qed.

(** [loadLRC] on a miss that stores nothing returns [null] or throws,
    keeps the cache and starts with the fetch. *)
Lemma loadLRC_nothing env this key :
  truthy (cache_get this key) = false ->
  (forall lyrics, ~ stores env this key lyrics) -> key <> [] ->
  exists c new,
    (c = Normal JSNull \/ c = Throws) /\
    loadLRC env this key
    = (c,
       {| basePath := basePath this; cache := cache this;
          trace := trace this ++ EvFetch (lrc_url this key) :: new |}).
Proof.
  intros Hmiss Hno Hkey. unfold loadLRC. rewrite Hmiss.
  cbn [emit basePath lrc_url]. fold (lrc_url this key).
  destruct (fetch env (lrc_url this key)) as [[|]|[|] [text|[|]]] eqn:Hf;
    unfold catch_error, emit; cbn [basePath cache trace];
    rewrite <- ?app_assoc; cbn [app]; eauto 6.
  destruct (parseLRC text) as [|e l] eqn:Hp.
  - simpl. eauto 6.
  - exfalso. apply (Hno (e :: l)). split; [exact Hkey|].
    split; [exact Hmiss|]. exists text. rewrite Hp. repeat split; congruence.
Qed.

Lemma primary_fails_no_store env this key lyrics :
  primary_fails env this key -> ~ stores env this key lyrics.
Proof.
  intros Hf (_ & _ & text & Ht & Hp & Hne).
  destruct Hf as [[e H]|[[b H]|[[e H]|(t & H & Hp')]]]; congruence.
Qed.

Lemma loadLRC_fails env this key :
  key <> [] ->
  truthy (cache_get this key) = false -> primary_fails env this key ->
  exists c new,
    (c = Normal JSNull \/ c = Throws) /\
    loadLRC env this key
    = (c,
       {| basePath := basePath this; cache := cache this;
          trace := trace this ++ EvFetch (lrc_url this key) :: new |}).
Proof.
  intros Hkey Hmiss Hf. apply loadLRC_nothing; auto.
  intros lyrics. now apply primary_fails_no_store.
Qed.

(** When nothing is raised, or what is raised has a readable message,
    the failing primary path ends in [null]. *)
Lemma loadLRC_fails_null env this key :
  truthy (cache_get this key) = false -> primary_fails env this key ->
  raised env this key <> Some ReasonNullish ->
  exists new,
    loadLRC env this key
    = (Normal JSNull,
       {| basePath := basePath this; cache := cache this;
          trace := trace this ++ EvFetch (lrc_url this key) :: new |}).
Proof.
  intros Hmiss Hf Hr. unfold loadLRC. rewrite Hmiss.
  cbn [emit basePath lrc_url]. fold (lrc_url this key).
  unfold raised in Hr.
  destruct Hf as [[e H]|[[b H]|[[e H]|(t & H & Hp)]]]; rewrite H in *.
  - destruct e; [|congruence]. unfold catch_error, emit.
    cbn [basePath cache trace]. rewrite <- app_assoc. eauto.
  - unfold emit. cbn [basePath cache trace]. rewrite <- app_assoc. eauto.
  - destruct e; [|congruence]. unfold catch_error, emit.
    cbn [basePath cache trace]. rewrite <- app_assoc. eauto.
  - rewrite Hp. simpl. eauto.
Qed.

(** When what is raised is [undefined] or [null], [loadLRC] throws right
    after the fetch, without a log line. *)
Lemma loadLRC_throws env this key :
  truthy (cache_get this key) = false ->
  raised env this key = Some ReasonNullish ->
  loadLRC env this key = (Throws, emit (EvFetch (lrc_url this key)) this).
Proof.
  intros Hmiss Hr. unfold loadLRC. rewrite Hmiss.
  cbn [emit basePath lrc_url]. fold (lrc_url this key).
  unfold raised in Hr.
  destruct (fetch env (lrc_url this key)) as [e|[|] [t|e]];
    try discriminate Hr; injection Hr as ->; reflexivity.
Qed.

Lemma stores_dec env this key :
  (exists lyrics, stores env this key lyrics)
  \/ forall lyrics, ~ stores env this key lyrics.
Proof.
  destruct key as [|c key].
  { right. intros l (H & _). congruence. }
  destruct (truthy (cache_get this (c :: key))) eqn:Hm.
  { right. intros l (_ & H & _). congruence. }
  destruct (fetch env (lrc_url this (c :: key))) as [e|[|] [text|e]] eqn:Hf;
    try (right; intros l (_ & _ & t & Ht & _); congruence).
  destruct (parseLRC text) as [|e l] eqn:Hp.
  - right. intros l (_ & _ & t & Ht & Hl & Hne). congruence.
  - left. exists (e :: l). split; [discriminate|]. split; [exact Hm|].
    exists text. rewrite Hp. repeat split; congruence.
Qed.

Lemma stores_functional env this key l1 l2 :
  stores env this key l1 -> stores env this key l2 -> l1 = l2.
Proof.
  intros (_ & _ & t1 & H1 & <- & _) (_ & _ & t2 & H2 & <- & _). congruence.
Qed.

Lemma getLyrics_stores env this key lyrics :
  stores env this key lyrics ->
  getLyrics env this (Some key)
  = (Normal (JSArray lyrics),
     emit (EvLogLoaded key (length lyrics))
       (cache_set (emit (EvFetch (lrc_url this key)) this) key lyrics)).
Proof.
  intros H. pose proof H as (Hkey & _ & _ & _ & _ & Hne).
  destruct key as [|c key]; [congruence|].
  unfold getLyrics. rewrite (loadLRC_stores _ _ _ _ H).
  cbn [truthy length_positive andb].
  now rewrite (length_positive_nonempty _ Hne).
Qed.

Lemma getLyrics_hit env this key lyrics :
  key <> [] -> cache this !! key = Some lyrics -> lyrics <> [] ->
  getLyrics env this (Some key) = (Normal (JSArray lyrics), this).
Proof.
  intros Hkey Hc Hne. destruct key as [|c key]; [congruence|].
  unfold getLyrics. apply cache_get_own in Hc.
  rewrite loadLRC_hit by now rewrite Hc. rewrite Hc.
  cbn [truthy length_positive andb].
  now rewrite (length_positive_nonempty _ Hne).
Qed.

Lemma getLyrics_fallback env key :
  (if truthy (fallback_lines env key)
   then fallback_lines env key else JSNull) = fallback_result env key.
Proof.
  unfold fallback_lines, fallback_result.
  destruct (lyricsData env) as [table|]; [|reflexivity].
  destruct (table key) as [[[l|]]|]; reflexivity.
Qed.

(** After [loadLRC] has returned something falsy or without a positive
    length, [getLyrics] consults the table and returns what it gives. *)
Lemma getLyrics_after_loadLRC env this key v this' :
  key <> [] -> loadLRC env this key = (Normal v, this') ->
  truthy v && length_positive v = false ->
  getLyrics env this (Some key)
  = (Normal (fallback_result env key), emit (EvLyricsData key) this').
Proof.
  intros Hkey Hl Hv. destruct key as [|c key]; [congruence|].
  unfold getLyrics. rewrite Hl, Hv. rewrite <- getLyrics_fallback.
  now destruct (truthy (fallback_lines env (c :: key))).
Qed.

(** When [loadLRC] throws, so does [getLyrics], at once. *)
Lemma getLyrics_after_throw env this key this' :
  key <> [] -> loadLRC env this key = (Throws, this') ->
  getLyrics env this (Some key) = (Throws, this').
Proof.
  intros Hkey Hl. destruct key as [|c key]; [congruence|].
  unfold getLyrics. now rewrite Hl.
Qed.

(** One call: the base path stays, the trace grows, and the cache is
    either kept, when the call stores nothing, or extended by what the
    call stores. *)
Lemma getLyrics_frame env this key :
  exists new,
    basePath (snd (getLyrics env this key)) = basePath this /\
    trace (snd (getLyrics env this key)) = trace this ++ new /\
    ((cache (snd (getLyrics env this key)) = cache this /\
      forall k l, key = Some k -> ~ stores env this k l) \/
     exists k l, key = Some k /\ stores env this k l /\
       fst (getLyrics env this key) = Normal (JSArray l) /\
       cache (snd (getLyrics env this key)) = <[k := l]> (cache this)).
Proof.
  destruct key as [key|].
  2:{ exists []. simpl. rewrite app_nil_r. repeat split. left.
      split; [reflexivity|]. intros; discriminate. }
  destruct key as [|c key].
  { exists []. simpl. rewrite app_nil_r. repeat split. left.
    split; [reflexivity|]. intros k l [= <-] (H & _). congruence. }
  assert (Hkey : c :: key <> []) by discriminate.
  destruct (stores_dec env this (c :: key)) as [[l Hs]|Hno].
  { rewrite (getLyrics_stores _ _ _ _ Hs).
    exists [EvFetch (lrc_url this (c :: key));
            EvLogLoaded (c :: key) (length l)].
    cbn [snd fst emit cache_set basePath trace cache].
    rewrite <- app_assoc. repeat split. right. exists (c :: key), l. auto. }
  destruct (truthy (cache_get this (c :: key))) eqn:Hm.
  - pose proof (loadLRC_hit env this _ Hm) as Hl.
    destruct (truthy (cache_get this (c :: key))
              && length_positive (cache_get this (c :: key))) eqn:Hv.
    + exists []. unfold getLyrics. rewrite Hl, Hv. cbn [snd].
      rewrite app_nil_r. repeat split. left. split; [reflexivity|].
      intros k l [= <-]. apply Hno.
    + rewrite (getLyrics_after_loadLRC _ _ _ _ _ Hkey Hl Hv).
      exists [EvLyricsData (c :: key)]. cbn [snd emit basePath trace cache].
      repeat split. left. split; [reflexivity|].
      intros k l [= <-]. apply Hno.
  - destruct (loadLRC_nothing env this _ Hm Hno Hkey)
      as (cpl & new & [-> | ->] & Hl).
    + rewrite (getLyrics_after_loadLRC _ _ _ _ _ Hkey Hl eq_refl).
      exists (EvFetch (lrc_url this (c :: key)) :: new
              ++ [EvLyricsData (c :: key)]).
      cbn [snd emit basePath trace cache]. rewrite <- app_assoc.
      repeat split. left. split; [reflexivity|].
      intros k l [= <-]. apply Hno.
    + rewrite (getLyrics_after_throw _ _ _ _ Hkey Hl).
      exists (EvFetch (lrc_url this (c :: key)) :: new).
      cbn [snd basePath trace cache].
      repeat split. left. split; [reflexivity|].
      intros k l [= <-]. apply Hno.
Qed.

(** ** Histories *)

Lemma run_snoc this calls c :
  run this (calls ++ [c])
  = snd (getLyrics (fst c) (run this calls) (snd c)).
Proof. unfold run. now rewrite fold_left_app. Qed.

Lemma stored_before_snoc this calls c key lyrics :
  stored_before this calls key lyrics ->
  stored_before this (calls ++ [c]) key lyrics.
Proof.
  intros (before & env & after & -> & Hs).
  exists before, env, (after ++ [c]). split; [|exact Hs].
  now rewrite <- app_assoc.
Qed.

Lemma stored_before_snoc_inv this calls c key lyrics :
  stored_before this (calls ++ [c]) key lyrics ->
  stored_before this calls key lyrics \/
  (snd c = Some key /\ stores (fst c) (run this calls) key lyrics).
Proof.
  intros (before & env & after & E & Hs).
  destruct (rev after) as [|c' rafter] eqn:Er.
  - apply (f_equal (@rev _)) in Er. rewrite rev_involutive in Er.
    simpl in Er. subst after.
    apply app_inj_tail in E as [-> ->]. right. auto.
  - apply (f_equal (@rev _)) in Er. rewrite rev_involutive in Er.
    simpl in Er. subst after.
    change (before ++ (env, Some key) :: rev rafter ++ [c'])
      with (before ++ ((env, Some key) :: rev rafter) ++ [c']) in E.
    rewrite app_assoc in E. apply app_inj_tail in E as [-> ->].
    left. exists before, env, (rev rafter). auto.
Qed.

(** The cache of a loader that started empty holds, under each key, what
    a call of its history stored, and nothing else. *)
Lemma cache_history basePath0 calls key lyrics :
  cache (run (new_LRCLoader basePath0) calls) !! key = Some lyrics
  <-> stored_before (new_LRCLoader basePath0) calls key lyrics.
Proof.
  revert key lyrics. induction calls as [|c calls IH] using rev_ind;
    intros key lyrics.
  - simpl. rewrite lookup_empty. split; [discriminate|].
    intros (before & env & after & E & _). now destruct before.
  - rewrite run_snoc. set (this := run (new_LRCLoader basePath0) calls) in *.
    destruct (getLyrics_frame (fst c) this (snd c))
      as (new & _ & _ & [[Hc Hno] | (k & l & Hk & Hs & _ & Hc)]); rewrite Hc.
    + rewrite IH. split; [apply stored_before_snoc|].
      intros H. apply stored_before_snoc_inv in H as [H|[Hk Hs]]; [exact H|].
      now elim (Hno _ _ Hk Hs).
    + pose proof Hs as (_ & Hmiss & _).
      apply cache_get_falsy in Hmiss as [Hmiss _].
      destruct (decide (k = key)) as [->|Hne].
      * rewrite lookup_insert_eq. split.
        -- intros [= <-]. exists calls, (fst c), []. split; [|exact Hs].
           f_equal. destruct c as [e o]. simpl in *. now subst o.
        -- intros H. apply stored_before_snoc_inv in H as [H|[_ Hs']].
           ++ apply IH in H. congruence.
           ++ f_equal. eapply stores_functional; eauto.
      * rewrite lookup_insert_ne by exact Hne. rewrite IH.
        split; [apply stored_before_snoc|].
        intros H. apply stored_before_snoc_inv in H as [H|[Hk' _]];
          [exact H|congruence].
Qed.

Lemma stored_before_nonempty this calls key lyrics :
  stored_before this calls key lyrics -> key <> [] /\ lyrics <> [].
Proof. intros (? & ? & ? & _ & (H1 & _ & _ & _ & _ & H2)). auto. Qed.

(** * The claims about the loader *)

(** C5, as the code has it: for a key that is not empty and does not name
    a property that [this.cache] inherits from [Object.prototype], on a
    loader that started with an empty cache: when a call of the history
    stored a sequence for the key, [getLyrics] returns that sequence and
    leaves the loader as it is, so nothing is fetched; when none did,
    [getLyrics] fetches [basePath + key + ".lrc"].  A call that stores a
    sequence returns it, and the next call for the key returns it again
    without a fetch. *)
Theorem cached_iff_stored (basePath0 : jsstring) (calls : list Call)
  (env : Env) (key : jsstring) :
  key <> [] -> inherited key = None ->
  (forall lyrics,
     stored_before (new_LRCLoader basePath0) calls key lyrics ->
     getLyrics env (run (new_LRCLoader basePath0) calls) (Some key)
     = (Normal (JSArray lyrics), run (new_LRCLoader basePath0) calls)) /\
  ((forall lyrics,
      ~ stored_before (new_LRCLoader basePath0) calls key lyrics) ->
   exists new,
     trace (snd (getLyrics env (run (new_LRCLoader basePath0) calls)
                   (Some key)))
     = trace (run (new_LRCLoader basePath0) calls)
       ++ EvFetch (lrc_url (run (new_LRCLoader basePath0) calls) key) :: new)
  /\
  (forall (this : LRCLoader) (env2 : Env) lyrics,
     stores env this key lyrics ->
     fst (getLyrics env this (Some key)) = Normal (JSArray lyrics) /\
     getLyrics env2 (snd (getLyrics env this (Some key))) (Some key)
     = (Normal (JSArray lyrics), snd (getLyrics env this (Some key)))).
Proof.
  intros Hkey Hinh. set (this := run (new_LRCLoader basePath0) calls).
  split; [|split].
  - intros lyrics Hs. pose proof (stored_before_nonempty _ _ _ _ Hs) as [_ Hne].
    apply cache_history in Hs. now apply getLyrics_hit.
  - intros Hno.
    assert (Hmiss : truthy (cache_get this key) = false).
    { apply cache_get_falsy. split; [|exact Hinh].
      destruct (cache this !! key) as [l|] eqn:E; [|reflexivity].
      apply cache_history in E. now elim (Hno l). }
    destruct (stores_dec env this key) as [[l Hs]|Hns].
    + rewrite (getLyrics_stores _ _ _ _ Hs).
      exists [EvLogLoaded key (length l)].
      cbn [snd emit cache_set trace]. now rewrite <- app_assoc.
    + destruct (loadLRC_nothing env this key Hmiss Hns Hkey)
        as (cpl & new & [-> | ->] & Hl).
      * rewrite (getLyrics_after_loadLRC _ _ _ _ _ Hkey Hl eq_refl).
        exists (new ++ [EvLyricsData key]). cbn [snd emit trace].
        now rewrite <- app_assoc.
      * rewrite (getLyrics_after_throw _ _ _ _ Hkey Hl).
        exists new. reflexivity.
  - intros this1 env2 lyrics Hs.
    pose proof Hs as (_ & _ & _ & _ & _ & Hne).
    rewrite (getLyrics_stores _ _ _ _ Hs). cbn [fst snd]. split; [reflexivity|].
    apply getLyrics_hit; [exact Hkey| |exact Hne].
    cbn [emit cache_set cache]. apply lookup_insert_eq.
Qed.

Lemma cached_iff_stored_witness :
  js "song" <> [] /\ inherited (js "song") = None /\
  exists new,
    trace (snd (getLyrics (env_with_file (js "./assets/lyrics/song.lrc")
                             (js "[00:01]La"))
                  lrcLoader (Some (js "song"))))
    = EvFetch (js "./assets/lyrics/song.lrc") :: new.
Proof.
  split; [discriminate|]. split; [reflexivity|].
  destruct (cached_iff_stored (js "./assets/lyrics/") []
              (env_with_file (js "./assets/lyrics/song.lrc") (js "[00:01]La"))
              (js "song")) as (_ & H & _); [discriminate|reflexivity|].
  apply H. intros lyrics (before & e & after & E & _).
  destruct before; discriminate E.
Defined.

(** C5, as the claim has it, fails: the first call for the empty key, for
    which nothing was ever stored, does not fetch. *)
Lemma empty_key_first_call_no_fetch :
  ~ exists url,
      In (EvFetch url)
        (trace (snd (getLyrics
                       (env_with_file (js "./assets/lyrics/.lrc")
                          (js "[00:01]La"))
                       lrcLoader (Some (js ""))))).
Proof. intros (url & H). exact H. Qed.

(** A key that names an inherited property is answered from
    [Object.prototype], also without a fetch: for ["constructor"] the
    result is the [Object] function, whose [length] is 1. *)
Lemma getLyrics_constructor env :
  getLyrics env lrcLoader (Some (js "constructor"))
  = (Normal (JSBuiltin Object_constructor), lrcLoader).
Proof. reflexivity. Qed.



(** C9: [getLyrics(null)] and [getLyrics("")] return [null] and leave the
    loader as it is: the cache is unchanged and the trace has no new
    event, neither a fetch nor a look at the fallback table. *)
Theorem getLyrics_null_or_empty (env : Env) (this : LRCLoader) :
  getLyrics env this None = (Normal JSNull, this) /\
  getLyrics env this (Some (js "")) = (Normal JSNull, this).
Proof. split; reflexivity. Qed.

(** C10: a call of [getLyrics] either leaves the cache as it is, or
    stores under its argument the non-empty sequence parsed from the
    fetched text, which it returns.  The cache is left as it is for a
    [null] or empty key, when [this.cache[key]] is truthy, when the
    primary path finds nothing, and whenever the call consults the
    fallback table. *)
Theorem cache_only_stores_parse (env : Env) (this : LRCLoader)
  (key : option jsstring) :
  ((cache (snd (getLyrics env this key)) = cache this /\
    forall k l, key = Some k -> ~ stores env this k l) \/
   exists k l, key = Some k /\ stores env this k l /\
     fst (getLyrics env this key) = Normal (JSArray l) /\
     cache (snd (getLyrics env this key)) = <[k := l]> (cache this)) /\
  (key = None \/ key = Some [] ->
   cache (snd (getLyrics env this key)) = cache this) /\
  (forall k, key = Some k -> truthy (cache_get this k) = true ->
   cache (snd (getLyrics env this key)) = cache this) /\
  (forall k, key = Some k -> primary_fails env this k ->
   cache (snd (getLyrics env this key)) = cache this) /\
  (forall k new,
     trace (snd (getLyrics env this key)) = trace this ++ new ->
     In (EvLyricsData k) new ->
     cache (snd (getLyrics env this key)) = cache this).
Proof.
  destruct (getLyrics_frame env this key) as (new & _ & Htr & Hc).
  split; [exact Hc|].
  destruct Hc as [[Hc _]|(k & l & -> & Hs & Hv & Hc)];
    [repeat split; intros; exact Hc|].
  pose proof Hs as (Hkey & Hmiss & text & Hf & Hp & Hne).
  split; [|split; [|split]].
  - intros [?|[= ->]]; [discriminate|congruence].
  - intros k' [= <-] Hhit. congruence.
  - intros k' [= <-] Hpf. exfalso.
    exact (primary_fails_no_store _ _ _ _ Hpf Hs).
  - intros k' new' Htr' Hin. exfalso.
    rewrite (getLyrics_stores _ _ _ _ Hs) in Htr'.
    cbn [snd emit cache_set trace] in Htr'.
    rewrite <- app_assoc in Htr'. apply app_inv_head in Htr'. subst new'.
    destruct Hin as [H|[H|[]]]; discriminate H.
Qed.

(** * Further properties of the parser *)

(** ** Where the entries come from *)

Lemma exec_loop_tokens : forall fuel s t,
  In t (exec_loop fuel s) -> exists tok, t = Token_time tok.
Proof.
  induction fuel as [|fuel IH]; intros s t; simpl; [tauto|].
  destruct (timeRegex_exec s) as [[[pre m] rest]|] eqn:Hs; [|simpl; tauto].
  intros [<-|Hin]; [|eauto].
  apply timeRegex_exec_Some in Hs as (s' & _ & Hm).
  apply timeRegex_match_token in Hm as (tok & _ & ->).
  exists tok. apply timestamp_of_captures.
Qed.

Lemma In_flat_map_inv {A B : Type} (f : A -> list B) (l : list A) (y : B) :
  In y (flat_map f l) -> exists x, In x l /\ In y (f x).
Proof.
  induction l as [|x l IH]; simpl; [tauto|].
  intros H. apply in_app_or in H as [H|H]; [eauto|].
  destruct (IH H) as (x' & Hx & Hy). eauto.
Qed.

(** Every collected entry is an entry of a line that is neither metadata
    nor blank: its time is the time of a token and its text the text of
    the line. *)
Lemma In_collect lrcContent e :
  In e (collect lrcContent) ->
  exists line tok,
    In line (split_lines lrcContent) /\
    time e = Token_time tok /\ text e = textPart_of line.
Proof.
  rewrite collect_eq. intros H.
  apply In_flat_map_inv in H as (line & Hl & He).
  unfold line_entries in He.
  destruct (is_metadata line); [elim He|].
  destruct (is_empty (trim line)); [elim He|].
  apply in_map_iff in He as (t & <- & Ht).
  apply exec_loop_tokens in Ht as (tok & ->).
  exists line, tok. auto.
Qed.

Lemma In_parseLRC lrcContent e :
  In e (parseLRC lrcContent) ->
  e = leading_note \/ In e (collect lrcContent).
Proof.
  rewrite parseLRC_eq. intros H. apply in_app_or in H as [H|H].
  - destruct (leading_cases (sorted_lyrics lrcContent)) as [E|E];
      rewrite E in H; [elim H|].
    destruct H as [<-|[]]. now left.
  - right. eapply Permutation_in; [apply Array_sort_Permutation|exact H].
Qed.

Lemma Token_time_range tok : (0 <= Token_time tok <= 6040)%Z.
Proof.
  rewrite Token_time_half_up. unfold Token_minutes, Token_seconds.
  pose proof (Digit_value_range (tok_m1 tok)).
  pose proof (Digit_value_range (tok_m2 tok)).
  pose proof (Digit_value_range (tok_s1 tok)).
  pose proof (Digit_value_range (tok_s2 tok)).
  destruct (500 <=? Token_milliseconds tok)%Z; lia.
Qed.

(** X1: the time of every entry that [parseLRC] returns is an integer
    between 0 and 6040 seconds; 6040 is reached, by [[99:99.50]]. *)
Theorem parseLRC_time_range (lrcContent : jsstring) (e : LyricLine) :
  In e (parseLRC lrcContent) ->
  (0 <= time e <= 6040)%Z /\
  parseLRC (js "[99:99.50]x")
  = [{| time := 0; text := music_note |};
     {| time := 6040; text := js "x" |}].
Proof.
  intros H. split; [|reflexivity].
  apply In_parseLRC in H as [->|H]; [simpl; lia|].
  apply In_collect in H as (line & tok & _ & -> & _).
  apply Token_time_range.
Qed.

Lemma parseLRC_time_range_witness :
  In {| time := 6; text := js "Hello" |} (parseLRC (js "[00:05.50]Hello")) /\
  (0 <= 6 <= 6040)%Z.
Proof.
  assert (H : In {| time := 6; text := js "Hello" |}
                (parseLRC (js "[00:05.50]Hello")))
    by (right; left; reflexivity).
  split; [exact H|].
  exact (proj1 (parseLRC_time_range _ _ H)).
Defined.

(** ** Trimmed texts *)

Lemma trimStart_keep c s :
  is_space c = false -> trimStart (c :: s) = c :: s.
Proof. intros H. simpl. now rewrite H. Qed.

Lemma trimStart_cases s :
  trimStart s = [] \/
  exists c r, trimStart s = c :: r /\ is_space c = false.
Proof.
  induction s as [|c s IH]; simpl; [auto|].
  destruct (is_space c) eqn:E; [exact IH|]. right. eauto.
Qed.

Lemma trimStart_idempotent s : trimStart (trimStart s) = trimStart s.
Proof.
  destruct (trimStart_cases s) as [->|(c & r & -> & Hc)]; [reflexivity|].
  now apply trimStart_keep.
Qed.

Lemma trimStart_app s y :
  trimStart s <> [] -> trimStart (s ++ y) = trimStart s ++ y.
Proof.
  induction s as [|c s IH]; simpl; [congruence|].
  destruct (is_space c); [exact IH|reflexivity].
Qed.

Lemma trimStart_snoc s c :
  is_space c = false -> trimStart (s ++ [c]) = trimStart s ++ [c].
Proof.
  intros Hc. induction s as [|x s IH]; simpl.
  - now rewrite Hc.
  - destruct (is_space x); [exact IH|reflexivity].
Qed.

(** The shape of a trimmed string: empty, or from a first code unit that
    is not a space to a last one that is not a space. *)
Lemma trim_cases s :
  trim s = [] \/
  exists c w, is_space c = false /\
    trim s = c :: rev (trimStart w) /\ trimStart (rev (trim s)) = rev (trim s).
Proof.
  unfold trim, trimEnd.
  destruct (trimStart_cases s) as [->|(c & r & -> & Hc)]; [now left|].
  right. exists c, (rev r). split; [exact Hc|].
  cbn [rev]. rewrite (trimStart_snoc _ _ Hc), rev_app_distr. cbn [rev app].
  split; [reflexivity|].
  rewrite rev_involutive, (trimStart_snoc _ _ Hc).
  now rewrite trimStart_idempotent.
Qed.

Lemma trim_idempotent s : trim (trim s) = trim s.
Proof.
  destruct (trim_cases s) as [->|(c & w & Hc & E & Hr)]; [reflexivity|].
  unfold trim at 1. unfold trimEnd.
  assert (Hs : trimStart (trim s) = trim s)
    by (rewrite E; now apply trimStart_keep).
  rewrite Hs, Hr. apply rev_involutive.
Qed.

Lemma textPart_of_trimmed line :
  textPart_of line <> [] /\ trim (textPart_of line) = textPart_of line.
Proof.
  unfold textPart_of.
  destruct (trim (remove_timestamps line)) as [|c r] eqn:E; simpl.
  - split; [discriminate|reflexivity].
  - split; [discriminate|]. rewrite <- E. apply trim_idempotent.
Qed.

(** X2: no entry that [parseLRC] returns has an empty text, and every
    text is trimmed: it neither starts nor ends with white space. *)
Theorem parseLRC_text_trimmed (lrcContent : jsstring) (e : LyricLine) :
  In e (parseLRC lrcContent) ->
  text e <> [] /\ trim (text e) = text e.
Proof.
  intros H. apply In_parseLRC in H as [->|H].
  - split; [discriminate|reflexivity].
  - apply In_collect in H as (line & tok & _ & _ & ->).
    apply textPart_of_trimmed.
Qed.

Lemma parseLRC_text_trimmed_witness :
  In {| time := 5; text := js "Hi there" |}
    (parseLRC (js "[00:05]   Hi there  ")) /\
  trim (js "Hi there") = js "Hi there".
Proof.
  assert (H : In {| time := 5; text := js "Hi there" |}
                (parseLRC (js "[00:05]   Hi there  ")))
    by (right; left; reflexivity).
  split; [exact H|].
  exact (proj2 (parseLRC_text_trimmed _ _ H)).
Defined.

(** X3: a non-empty result of [parseLRC] starts at second 0, 1 or 2:
    either with an entry of the input that early, or with the synthetic
    entry at 0. *)
Theorem parseLRC_starts_early (lrcContent : jsstring) (e : LyricLine)
  (rest : list LyricLine) :
  parseLRC lrcContent = e :: rest -> (0 <= time e <= 2)%Z.
Proof.
  intros H.
  assert (Hin : In e (parseLRC lrcContent)) by (rewrite H; now left).
  assert (H0 : (0 <= time e)%Z).
  { apply In_parseLRC in Hin as [->|Hin]; [simpl; lia|].
    apply In_collect in Hin as (line & tok & _ & -> & _).
    apply Token_time_range. }
  split; [exact H0|].
  unfold parseLRC in H.
  destruct (sorted_lyrics lrcContent) as [|first l]; [discriminate|].
  destruct (Z.gtb_spec (time first) 2) as [Hgt|Hle].
  - injection H as <- _. simpl. lia.
  - injection H as <- _. exact Hle.
Qed.

Lemma parseLRC_starts_early_witness :
  parseLRC (js "[00:05.50]Hello")
  = [{| time := 0; text := music_note |}; {| time := 6; text := js "Hello" |}]
  /\ (0 <= 0 <= 2)%Z.
Proof.
  split; [reflexivity|].
  exact (parseLRC_starts_early (js "[00:05.50]Hello")
           {| time := 0; text := music_note |}
           [{| time := 6; text := js "Hello" |}] eq_refl).
Defined.

(** ** Input without timestamps *)

Lemma split_lines_not_nil s : split_lines s <> [].
Proof.
  destruct s as [|c s]; simpl; [discriminate|].
  destruct (c =? 0x0A); [discriminate|].
  destruct (split_lines s); discriminate.
Qed.

Lemma split_lines_no_bracket s :
  no_bracket s = true -> Forall (fun l => no_bracket l = true) (split_lines s).
Proof.
  induction s as [|c s IH]; simpl; intros H.
  - repeat constructor.
  - apply andb_true_iff in H as [Hc H]. specialize (IH H).
    destruct (c =? 0x0A); [constructor; auto|].
    destruct (split_lines s) as [|l ls]; [repeat constructor; simpl|].
    + now rewrite Hc.
    + apply Forall_cons_iff in IH as [Hl Hls]. constructor; [|exact Hls].
      simpl. now rewrite Hc, Hl.
Qed.

Lemma line_entries_no_bracket line :
  no_bracket line = true -> line_entries line = [].
Proof.
  intros H. unfold line_entries.
  destruct (is_metadata line); [reflexivity|].
  destruct (is_empty (trim line)); [reflexivity|].
  now rewrite timestamps_of_eq, (timeRegex_exec_plain _ H).
Qed.

Lemma parseLRC_collect_nil lrcContent :
  collect lrcContent = [] -> parseLRC lrcContent = [].
Proof. intros H. unfold parseLRC, sorted_lyrics. now rewrite H. Qed.

(** X4: content without an opening bracket gives no entry at all, text
    without a timestamp being dropped; in particular content that is
    empty or all white space parses to the empty array. *)
Theorem parseLRC_no_bracket (lrcContent : jsstring) :
  no_bracket lrcContent = true ->
  parseLRC lrcContent = [] /\
  forall blank, forallb is_space blank = true -> parseLRC blank = [].
Proof.
  assert (Hnb : forall s, no_bracket s = true -> parseLRC s = []).
  { intros s H. apply parseLRC_collect_nil. rewrite collect_eq.
    apply split_lines_no_bracket in H.
    induction H as [|l ls Hl _ IH]; [reflexivity|].
    simpl. now rewrite (line_entries_no_bracket _ Hl), IH. }
  intros H. split; [now apply Hnb|].
  intros blank Hb. now apply Hnb, no_bracket_spaces.
Qed.

Lemma parseLRC_no_bracket_witness :
  no_bracket (js "just words" ++ [0x0A] ++ js "00:05 more words") = true /\
  parseLRC (js "just words" ++ [0x0A] ++ js "00:05 more words") = [].
Proof.
  split; [reflexivity|].
  exact (proj1 (parseLRC_no_bracket
                  (js "just words" ++ [0x0A] ++ js "00:05 more words")
                  eq_refl)).
Defined.

(** ** Metadata lines *)

Lemma prefix_ci_same p : forall s r,
  List.map canonicalize s = List.map canonicalize p ->
  prefix_ci p (s ++ r) = true.
Proof.
  induction p as [|x p IH]; intros s r H; [reflexivity|].
  destruct s as [|y s]; [discriminate|].
  simpl in H. injection H as Hy Hs. simpl.
  rewrite Hy, N.eqb_refl. now apply IH.
Qed.

(** X5: a line that starts with [[], one of the eleven tag names in any
    mix of upper and lower case, and [:] contributes no entry, whatever
    follows on the line, timestamps included. *)
Theorem metadata_line_skipped (tag : string) (name rest : jsstring) :
  In tag metadata_tags ->
  List.map canonicalize name = List.map canonicalize (js tag) ->
  is_metadata (0x5B :: name ++ 0x3A :: rest) = true /\
  forall lyrics,
    process_line lyrics (0x5B :: name ++ 0x3A :: rest) = lyrics.
Proof.
  intros Htag Hname.
  assert (Hm : is_metadata (0x5B :: name ++ 0x3A :: rest) = true).
  { unfold is_metadata. rewrite N.eqb_refl. cbn [andb].
    apply existsb_exists. exists tag. split; [exact Htag|].
    change (name ++ 0x3A :: rest) with (name ++ [0x3A] ++ rest).
    rewrite app_assoc. apply prefix_ci_same.
    rewrite !List.map_app. now rewrite Hname. }
  split; [exact Hm|].
  intros lyrics. unfold process_line. now rewrite Hm.
Qed.

Lemma metadata_line_skipped_witness :
  In "offset"%string metadata_tags /\
  List.map canonicalize (js "OffSet") = List.map canonicalize (js "offset") /\
  process_line [] (js "[OffSet:+250][00:05]Hi") = [].
Proof.
  assert (Hin : In "offset"%string metadata_tags)
    by (unfold metadata_tags; simpl; tauto).
  split; [exact Hin|]. split; [reflexivity|].
  exact (proj2 (metadata_line_skipped "offset" (js "OffSet")
                  (js "+250][00:05]Hi") Hin eq_refl) []).
Defined.

(** ** Lines are parsed one by one *)

Lemma split_lines_app a b :
  split_lines (a ++ 0x0A :: b) = split_lines a ++ split_lines b.
Proof.
  induction a as [|c a IH]; [reflexivity|].
  cbn [app split_lines]. rewrite IH.
  destruct (c =? 0x0A); [reflexivity|].
  pose proof (split_lines_not_nil a) as Hne.
  destruct (split_lines a) as [|l ls]; [congruence|reflexivity].
Qed.

Lemma collect_lines_app (a b : jsstring) :
  collect (a ++ 0x0A :: b) = collect a ++ collect b.
Proof. rewrite !collect_eq, split_lines_app. apply flat_map_app. Qed.

(** X6: the entries collected from two pieces of content joined by a
    line feed are those of the first piece followed by those of the
    second: a line never affects what another line contributes.  In the
    result, the entries of one time are those of the first piece, then
    those of the second. *)
Theorem collect_app (a b : jsstring) :
  collect (a ++ 0x0A :: b) = collect a ++ collect b /\
  forall t,
    at_time t (parseLRC (a ++ 0x0A :: b))
    = at_time t (leading (sorted_lyrics (a ++ 0x0A :: b)))
      ++ at_time t (collect a) ++ at_time t (collect b).
Proof.
  split; [apply collect_lines_app|].
  intros t. rewrite parseLRC_eq. unfold at_time.
  rewrite List.filter_app. f_equal. unfold sorted_lyrics.
  fold (at_time t (Array_sort by_time (collect (a ++ 0x0A :: b)))).
  rewrite at_time_Array_sort, collect_lines_app. apply List.filter_app.
Qed.

(** ** White space at the end of a line *)

Lemma render_ends_with_bracket tok : exists body, render tok = body ++ [0x5D].
Proof. unfold render. eexists. rewrite app_assoc. reflexivity. Qed.

Lemma timeRegex_match_snoc s c :
  is_space c = true ->
  timeRegex_match (s ++ [c])
  = match timeRegex_match s with
    | Some (m, r) => Some (m, r ++ [c])
    | None => None
    end.
Proof.
  intros Hc. destruct (timeRegex_match s) as [[m r]|] eqn:Hs.
  - apply timeRegex_match_token in Hs as (tok & -> & ->).
    rewrite <- app_assoc. apply timeRegex_match_render.
  - destruct (timeRegex_match (s ++ [c])) as [[m' r']|] eqn:Hs'; [|reflexivity].
    exfalso. apply timeRegex_match_token in Hs' as (tok & E & _).
    destruct (rev r') as [|x rr] eqn:Er;
      apply (f_equal (@rev _)) in Er; rewrite rev_involutive in Er;
      simpl in Er; subst r'.
    + rewrite app_nil_r in E.
      destruct (render_ends_with_bracket tok) as [body Eb]. rewrite Eb in E.
      apply app_inj_tail in E as [_ ->]. discriminate Hc.
    + rewrite app_assoc in E. apply app_inj_tail in E as [-> _].
      rewrite timeRegex_match_render in Hs. discriminate Hs.
Qed.

Lemma is_space_not_bracket c : is_space c = true -> (c =? 0x5B) = false.
Proof.
  intros H. destruct (N.eqb_spec c 0x5B) as [->|]; [discriminate H|reflexivity].
Qed.

Lemma timeRegex_exec_snoc s c :
  is_space c = true ->
  timeRegex_exec (s ++ [c])
  = match timeRegex_exec s with
    | Some (p, m, r) => Some (p, m, r ++ [c])
    | None => None
    end.
Proof.
  intros Hc. induction s as [|x s IH].
  - cbn [app].
    rewrite timeRegex_exec_cons
      by (apply timeRegex_match_head; now apply is_space_not_bracket).
    reflexivity.
  - change ((x :: s) ++ [c]) with (x :: (s ++ [c])).
    cbn [timeRegex_exec].
    change (x :: (s ++ [c])) with ((x :: s) ++ [c]).
    rewrite (timeRegex_match_snoc _ _ Hc).
    destruct (timeRegex_match (x :: s)) as [[m r]|]; [reflexivity|].
    rewrite IH. destruct (timeRegex_exec s) as [[[p m] r]|]; reflexivity.
Qed.

Lemma timestamps_of_snoc c : is_space c = true ->
  forall n s, (length s <= n)%nat -> timestamps_of (s ++ [c]) = timestamps_of s.
Proof.
  intros Hc. induction n as [|n IH]; intros s Hn;
    rewrite (timestamps_of_eq (s ++ [c])), (timestamps_of_eq s),
      (timeRegex_exec_snoc _ _ Hc);
    destruct (timeRegex_exec s) as [[[p m] r]|] eqn:Hs; try reflexivity;
    pose proof (timeRegex_exec_shorter _ _ _ _ Hs) as Hlt.
  - lia.
  - f_equal. apply IH. lia.
Qed.

Lemma remove_timestamps_snoc c : is_space c = true ->
  forall n s, (length s <= n)%nat ->
  remove_timestamps (s ++ [c]) = remove_timestamps s ++ [c].
Proof.
  intros Hc. induction n as [|n IH]; intros s Hn;
    rewrite (remove_timestamps_eq (s ++ [c])), (remove_timestamps_eq s),
      (timeRegex_exec_snoc _ _ Hc);
    destruct (timeRegex_exec s) as [[[p m] r]|] eqn:Hs; try reflexivity;
    pose proof (timeRegex_exec_shorter _ _ _ _ Hs) as Hlt.
  - lia.
  - rewrite IH by lia. now rewrite app_assoc.
Qed.

Lemma trim_snoc s c : is_space c = true -> trim (s ++ [c]) = trim s.
Proof.
  intros Hc. unfold trim, trimEnd.
  destruct (trimStart s) as [|x r] eqn:E.
  - apply trimStart_nil in E.
    assert (E' : trimStart (s ++ [c]) = []).
    { apply trimStart_nil. rewrite forallb_app, E. simpl. now rewrite Hc. }
    now rewrite E'.
  - rewrite trimStart_app by (rewrite E; discriminate).
    rewrite E, rev_app_distr. cbn [rev app trimStart]. now rewrite Hc.
Qed.

Lemma canonicalize_space c : is_space c = true -> canonicalize c = c.
Proof.
  intros H. unfold canonicalize.
  destruct ((0x61 <=? c) && (c <=? 0x7A)) eqn:E; [|reflexivity].
  exfalso. apply andb_true_iff in E as [E1 E2]. apply N.leb_le in E1, E2.
  unfold is_space in H.
  repeat (apply orb_true_iff in H as [H|H]);
    try (apply N.eqb_eq in H; lia).
  apply andb_true_iff in H as [H1 H2]. apply N.leb_le in H1, H2. lia.
Qed.

Lemma prefix_ci_snoc c p : is_space c = true ->
  forallb (fun x => negb (is_space (canonicalize x))) p = true ->
  forall s, prefix_ci p (s ++ [c]) = prefix_ci p s.
Proof.
  intros Hc. induction p as [|x p IH]; intros Hp s; [reflexivity|].
  simpl in Hp. apply andb_true_iff in Hp as [Hx Hp].
  apply negb_true_iff in Hx.
  destruct s as [|y s]; simpl.
  - rewrite (canonicalize_space _ Hc).
    destruct (N.eqb_spec (canonicalize x) c) as [E|]; [|reflexivity].
    rewrite E in Hx. congruence.
  - now rewrite IH.
Qed.

Lemma existsb_prefix_ci_snoc c r tags :
  is_space c = true ->
  Forall (fun tag => forallb (fun x => negb (is_space (canonicalize x)))
                       (js tag ++ [0x3A]) = true) tags ->
  existsb (fun tag => prefix_ci (js tag ++ [0x3A]) (r ++ [c])) tags
  = existsb (fun tag => prefix_ci (js tag ++ [0x3A]) r) tags.
Proof.
  intros Hc Ht. induction Ht as [|tag tags Htag _ IH]; [reflexivity|].
  cbn [existsb]. now rewrite (prefix_ci_snoc _ _ Hc Htag), IH.
Qed.

Lemma is_metadata_snoc line c :
  is_space c = true -> is_metadata (line ++ [c]) = is_metadata line.
Proof.
  intros Hc. destruct line as [|x r].
  - cbn [app]. unfold is_metadata. now rewrite (is_space_not_bracket _ Hc).
  - change ((x :: r) ++ [c]) with (x :: (r ++ [c])). unfold is_metadata.
    f_equal. apply existsb_prefix_ci_snoc; [exact Hc|].
    unfold metadata_tags. repeat constructor.
Qed.

Lemma line_entries_snoc line c :
  is_space c = true -> line_entries (line ++ [c]) = line_entries line.
Proof.
  intros Hc. unfold line_entries, textPart_of.
  rewrite (is_metadata_snoc _ _ Hc), (trim_snoc _ _ Hc).
  rewrite (timestamps_of_snoc _ Hc (length line)) by lia.
  rewrite (remove_timestamps_snoc _ Hc (length line)) by lia.
  now rewrite (trim_snoc _ _ Hc).
Qed.

Lemma split_lines_snoc s c :
  (c =? 0x0A) = false ->
  exists ls l,
    split_lines s = ls ++ [l] /\ split_lines (s ++ [c]) = ls ++ [l ++ [c]].
Proof.
  intros Hc. induction s as [|x s (ls & l & E & E')].
  - exists [], []. simpl. now rewrite Hc.
  - cbn [app split_lines]. rewrite E, E'.
    destruct (x =? 0x0A).
    + exists ([] :: ls), l. auto.
    + destruct ls as [|l0 ls]; simpl.
      * exists [], (x :: l). auto.
      * exists ((x :: l0) :: ls), l. auto.
Qed.

Lemma collect_snoc s c : is_space c = true -> (c =? 0x0A) = false ->
  collect (s ++ [c]) = collect s.
Proof.
  intros Hc Hn. rewrite !collect_eq.
  destruct (split_lines_snoc s c Hn) as (ls & l & -> & ->).
  rewrite !flat_map_app. simpl. now rewrite (line_entries_snoc _ _ Hc).
Qed.

Lemma parseLRC_collect a b : collect a = collect b -> parseLRC a = parseLRC b.
Proof. intros H. unfold parseLRC, sorted_lyrics. now rewrite H. Qed.

(** X7: white space at the end of a line changes nothing of what the
    line contributes, so content with CR LF line ends parses to the same
    entries as the content with LF line ends. *)
Theorem trailing_space_ignored (line ws : jsstring) :
  forallb is_space ws = true ->
  line_entries (line ++ ws) = line_entries line /\
  forall a b,
    parseLRC (a ++ 0x0D :: 0x0A :: b) = parseLRC (a ++ 0x0A :: b) /\
    parseLRC (a ++ [0x0D]) = parseLRC a.
Proof.
  intros Hws. split.
  - induction ws as [|c ws IH] using rev_ind; [now rewrite app_nil_r|].
    rewrite forallb_app in Hws. apply andb_true_iff in Hws as [Hws Hc].
    simpl in Hc. rewrite andb_true_r in Hc.
    rewrite app_assoc, (line_entries_snoc _ _ Hc). auto.
  - intros a b. split; apply parseLRC_collect.
    + change (a ++ 0x0D :: 0x0A :: b) with (a ++ [0x0D] ++ 0x0A :: b).
      rewrite app_assoc, !collect_lines_app. f_equal. now apply collect_snoc.
    + now apply collect_snoc.
Qed.

Lemma trailing_space_ignored_witness :
  forallb is_space [0x20; 0x09; 0x0D] = true /\
  line_entries (js "[00:07]La la" ++ [0x20; 0x09; 0x0D])
  = [{| time := 7; text := js "La la" |}].
Proof.
  split; [reflexivity|].
  rewrite (proj1 (trailing_space_ignored (js "[00:07]La la")
                    [0x20; 0x09; 0x0D] eq_refl)).
  reflexivity.
Defined.

(** ** The sorted order is forced *)

Lemma at_time_head x l : at_time (time x) (x :: l) = x :: at_time (time x) l.
Proof. unfold at_time. simpl. now rewrite Z.eqb_refl. Qed.

Lemma at_time_In t e l : In e (at_time t l) -> In e l /\ time e = t.
Proof.
  unfold at_time. intros H. apply filter_In in H as [H1 H2].
  split; [exact H1|]. now apply Z.eqb_eq.
Qed.

Lemma at_time_tail x l1 l2 :
  (forall t, at_time t (x :: l1) = at_time t (x :: l2)) ->
  forall t, at_time t l1 = at_time t l2.
Proof.
  intros H t. specialize (H t). unfold at_time in *. simpl in H.
  destruct (time x =? t)%Z; [now injection H|exact H].
Qed.

Lemma sorted_head_least x l e :
  StronglySorted le_time (x :: l) -> In e (x :: l) -> (time x <= time e)%Z.
Proof.
  intros Hs [<-|Hin]; [lia|].
  apply StronglySorted_inv in Hs as [_ Hall].
  rewrite List.Forall_forall in Hall. exact (Hall _ Hin).
Qed.

Lemma sorted_stable_unique : forall l1 l2,
  StronglySorted le_time l1 -> StronglySorted le_time l2 ->
  (forall t, at_time t l1 = at_time t l2) -> l1 = l2.
Proof.
  induction l1 as [|x l1 IH]; intros l2 H1 H2 H.
  - destruct l2 as [|y l2]; [reflexivity|].
    specialize (H (time y)). rewrite at_time_head in H. discriminate H.
  - destruct l2 as [|y l2].
    { specialize (H (time x)). rewrite at_time_head in H. discriminate H. }
    assert (Hxy : (time y <= time x)%Z).
    { apply (sorted_head_least _ _ _ H2).
      apply (at_time_In (time x)). rewrite <- H, at_time_head. now left. }
    assert (Hyx : (time x <= time y)%Z).
    { apply (sorted_head_least _ _ _ H1).
      apply (at_time_In (time y)). rewrite H, at_time_head. now left. }
    assert (Et : time x = time y) by lia.
    pose proof (H (time x)) as Hx.
    rewrite at_time_head, Et, at_time_head in Hx. injection Hx as -> _.
    f_equal. apply IH.
    + now apply StronglySorted_inv in H1.
    + now apply StronglySorted_inv in H2.
    + now apply (at_time_tail y).
Qed.

(** X8: the array after [lyrics.sort] is the only arrangement of the
    entries that is in non-decreasing order of time and keeps, for each
    time, the entries in their order; whatever stable sorting procedure
    the engine uses, the result is this one. *)
Theorem Array_sort_unique (lyrics sorted : list LyricLine) :
  StronglySorted le_time sorted ->
  (forall t, at_time t sorted = at_time t lyrics) ->
  sorted = Array_sort by_time lyrics.
Proof.
  intros Hs Hst. apply sorted_stable_unique.
  - exact Hs.
  - apply Array_sort_sorted.
  - intros t. now rewrite Hst, at_time_Array_sort.
Qed.

Lemma Array_sort_unique_witness :
  Array_sort by_time
    [{| time := 4; text := js "b" |}; {| time := 1; text := js "a" |};
     {| time := 4; text := js "c" |}]
  = [{| time := 1; text := js "a" |}; {| time := 4; text := js "b" |};
     {| time := 4; text := js "c" |}].
Proof.
  symmetry. apply Array_sort_unique.
  - repeat constructor; unfold le_time; simpl; lia.
  - intros t. unfold at_time. cbn [List.filter time].
    destruct (Z.eqb_spec 4 t), (Z.eqb_spec 1 t); try reflexivity; lia.
Defined.

(** * Further properties of the loader *)

(** ** What the cache holds *)

Lemma parseLRC_sorted lrcContent : StronglySorted le_time (parseLRC lrcContent).
Proof.
  rewrite parseLRC_eq.
  pose proof (Array_sort_sorted (collect lrcContent)) as Hs.
  fold (sorted_lyrics lrcContent) in Hs. unfold leading.
  destruct (sorted_lyrics lrcContent) as [|first l]; [constructor|].
  destruct (Z.gtb_spec (time first) 2) as [Hgt|Hle]; [|exact Hs].
  simpl. constructor; [exact Hs|].
  apply StronglySorted_inv in Hs as [_ Hall].
  constructor; [unfold le_time; simpl; lia|].
  eapply List.Forall_impl; [|exact Hall].
  unfold le_time. simpl. intros; lia.
Qed.

(** X9: in a loader that started with an empty cache, every cached
    value is the non-empty result of parsing some fetched text, in
    non-decreasing order of time, and it is cached under a key that is
    not empty and names no property inherited from [Object.prototype];
    the text is the one that the fetch of a call for that key was
    answered with. *)
Theorem cache_holds_parsed (basePath0 : jsstring) (calls : list Call)
  (key : jsstring) (lyrics : list LyricLine) :
  cache (run (new_LRCLoader basePath0) calls) !! key = Some lyrics ->
  key <> [] /\ inherited key = None /\ lyrics <> [] /\
  (exists lrcContent, lyrics = parseLRC lrcContent) /\
  StronglySorted le_time lyrics /\
  stored_before (new_LRCLoader basePath0) calls key lyrics.
Proof.
  intros H. apply cache_history in H. pose proof H as Hsb.
  destruct H as (before & env & after & _ & Hs).
  destruct Hs as (Hkey & Hmiss & text & _ & <- & Hne).
  apply cache_get_falsy in Hmiss as [_ Hinh].
  repeat split; auto; [now exists text|apply parseLRC_sorted].
Qed.

Lemma cache_holds_parsed_witness :
  cache (run lrcLoader
           [(env_with_file (js "./assets/lyrics/song.lrc") (js "[00:01]La"),
             Some (js "song"))]) !! js "song"
  = Some [{| time := 1; text := js "La" |}] /\
  js "song" <> [].
Proof.
  assert (H : cache (run lrcLoader
           [(env_with_file (js "./assets/lyrics/song.lrc") (js "[00:01]La"),
             Some (js "song"))]) !! js "song"
              = Some [{| time := 1; text := js "La" |}])
    by (vm_compute; reflexivity).
  split; [exact H|].
  exact (proj1 (cache_holds_parsed (js "./assets/lyrics/") _ _ _ H)).
Defined.

(** ** The cache only grows *)

Lemma getLyrics_keeps env this key k lyrics :
  cache this !! k = Some lyrics ->
  cache (snd (getLyrics env this key)) !! k = Some lyrics.
Proof.
  intros H.
  destruct (getLyrics_frame env this key)
    as (new & _ & _ & [[Hc _] | (k' & l & _ & Hs & _ & Hc)]); rewrite Hc.
  - exact H.
  - destruct Hs as (_ & Hmiss & _).
    apply cache_get_falsy in Hmiss as [Hmiss _].
    rewrite lookup_insert_ne; [exact H|]. intros ->. congruence.
Qed.

(** X10: through calls that do not overlap, each one made after the
    one before has completed, an entry of the cache is never removed nor
    replaced: what is cached under a key stays cached under it,
    unchanged, whatever the keys of the calls and whatever the
    collaborators answer.  (Calls that overlap are treated at the end of
    the file.) *)
Theorem cache_never_evicts (this : LRCLoader) (calls : list Call)
  (k : jsstring) (lyrics : list LyricLine) :
  cache this !! k = Some lyrics ->
  cache (run this calls) !! k = Some lyrics.
Proof.
  revert this. induction calls as [|c calls IH]; intros this H; [exact H|].
  simpl. apply IH. now apply getLyrics_keeps.
Qed.

Lemma cache_never_evicts_witness :
  cache (cache_set lrcLoader (js "song") [{| time := 1; text := js "La" |}])
    !! js "song" = Some [{| time := 1; text := js "La" |}] /\
  cache (run (cache_set lrcLoader (js "song")
                [{| time := 1; text := js "La" |}])
           [(env_with_file (js "./assets/lyrics/song.lrc") (js "[00:09]New"),
             Some (js "song"));
            (env_with_file (js "./assets/lyrics/other.lrc") (js "[00:02]x"),
             Some (js "other"))]) !! js "song"
  = Some [{| time := 1; text := js "La" |}].
Proof.
  assert (H : cache (cache_set lrcLoader (js "song")
                       [{| time := 1; text := js "La" |}]) !! js "song"
              = Some [{| time := 1; text := js "La" |}])
    by apply lookup_insert_eq.
  split; [exact H|]. now apply cache_never_evicts.
Defined.

(** ** What [getLyrics] returns *)

Lemma fallback_result_shape env key :
  fallback_result env key = JSNull \/
  exists l, fallback_result env key = JSArray l.
Proof.
  unfold fallback_result.
  destruct (lyricsData env) as [table|]; [|now left].
  destruct (table key) as [[[l|]]|]; eauto.
Qed.

Lemma loadLRC_value env this key v :
  fst (loadLRC env this key) = Normal v ->
  v = JSNull \/ (exists l, v = JSArray l) \/
  exists b, v = JSBuiltin b /\ inherited key = Some b /\
    cache this !! key = None.
Proof.
  unfold loadLRC, cache_get.
  destruct (cache this !! key) as [l|] eqn:Ec; simpl; [intros [= <-]; eauto|].
  destruct (inherited key) as [b|] eqn:Ei; simpl; [intros [= <-]; eauto 6|].
  destruct (fetch env _) as [[|]|[|] [text|[|]]]; simpl;
    try destruct (0 <? _)%Z; simpl; intros [= <-]; eauto.
Qed.

Lemma loadLRC_throws_inv env this key :
  fst (loadLRC env this key) = Throws ->
  truthy (cache_get this key) = false /\
  raised env this key = Some ReasonNullish.
Proof.
  unfold loadLRC, raised.
  destruct (truthy (cache_get this key)); [discriminate|].
  cbn [emit basePath lrc_url]. fold (lrc_url this key).
  destruct (fetch env (lrc_url this key)) as [[|]|[|] [text|[|]]];
    unfold catch_error; try destruct (0 <? _)%Z; cbn [fst];
    intros H; try discriminate H; auto.
Qed.

Lemma getLyrics_throws_iff env this key :
  fst (getLyrics env this key) = Throws
  <-> exists k, key = Some k /\ k <> [] /\
        truthy (cache_get this k) = false /\
        raised env this k = Some ReasonNullish.
Proof.
  split.
  - destruct key as [[|c key]|]; [discriminate| |discriminate].
    intros H. exists (c :: key). split; [reflexivity|].
    split; [discriminate|]. apply loadLRC_throws_inv.
    unfold getLyrics in H.
    destruct (loadLRC env this (c :: key)) as [[w|] this']; [|reflexivity].
    exfalso. destruct (truthy w && length_positive w); [discriminate H|].
    destruct (truthy (fallback_lines env (c :: key))); discriminate H.
  - intros (k & -> & Hkey & Hmiss & Hr).
    rewrite (getLyrics_after_throw env this k _ Hkey
               (loadLRC_throws env this k Hmiss Hr)).
    reflexivity.
Qed.

(** X11: [getLyrics] never returns [undefined].  What it returns is
    [null] or an array, except for a key that names a property inherited
    from [Object.prototype] and is not an own property of the cache: then
    it may return that built-in, when its [length] is positive.  For
    every other key the result is an array or [null], as documented.  It
    returns nothing, throwing instead, exactly when the key is not
    empty, is not found in the cache, and the fetch or the reading of
    the body is rejected with [undefined] or [null]. *)
Theorem getLyrics_result_shape (env : Env) (this : LRCLoader)
  (key : option jsstring) :
  (forall v, fst (getLyrics env this key) = Normal v ->
     v <> JSUndefined /\
     (v = JSNull \/ (exists l, v = JSArray l) \/
      exists k b, key = Some k /\ v = JSBuiltin b /\
        inherited k = Some b /\ cache this !! k = None /\
        exists n, Builtin_length b = Some n /\ (0 < n)%Z) /\
     (forall k, key = Some k -> inherited k = None ->
        v = JSNull \/ exists l, v = JSArray l)) /\
  (fst (getLyrics env this key) = Throws
   <-> exists k, key = Some k /\ k <> [] /\
         truthy (cache_get this k) = false /\
         raised env this k = Some ReasonNullish).
Proof.
  split; [|apply getLyrics_throws_iff].
  intros v Hv.
  assert (Hshape :
    v = JSNull \/ (exists l, v = JSArray l) \/
    exists k b, key = Some k /\ v = JSBuiltin b /\
      inherited k = Some b /\ cache this !! k = None /\
      exists n, Builtin_length b = Some n /\ (0 < n)%Z).
  { destruct key as [[|c key]|];
      [injection Hv as <-; now left| |injection Hv as <-; now left].
    assert (Hkey : c :: key <> []) by discriminate.
    destruct (loadLRC env this (c :: key)) as [[w|] this'] eqn:Hl.
    2:{ rewrite (getLyrics_after_throw _ _ _ _ Hkey Hl) in Hv.
        discriminate Hv. }
    destruct (truthy w && length_positive w) eqn:Hw.
    - unfold getLyrics in Hv. rewrite Hl, Hw in Hv. cbn [fst] in Hv.
      injection Hv as <-.
      pose proof (loadLRC_value env this (c :: key) w) as Hsh.
      rewrite Hl in Hsh. specialize (Hsh eq_refl).
      destruct Hsh as [->|[[l ->]|(b & -> & Hi & Hc)]];
        [discriminate Hw|eauto|].
      right. right. exists (c :: key), b. repeat split; auto.
      simpl in Hw. destruct (Builtin_length b) as [n|]; [|discriminate Hw].
      exists n. split; [reflexivity|]. now apply Z.ltb_lt.
    - rewrite (getLyrics_after_loadLRC _ _ _ _ _ Hkey Hl Hw) in Hv.
      cbn [fst] in Hv. injection Hv as <-.
      destruct (fallback_result_shape env (c :: key)) as [->|[l ->]]; eauto. }
  split; [|split; [exact Hshape|]].
  - destruct Hshape as [->|[[l ->]|(k & b & _ & -> & _)]]; discriminate.
  - intros k -> Hi.
    destruct Hshape as [H|[H|(k' & b & [= <-] & _ & Hb & _)]]; auto.
    congruence.
Qed.

Lemma getLyrics_result_shape_witness :
  fst (getLyrics (env_with_file [] []) lrcLoader (Some (js "song")))
  = Normal JSNull /\
  inherited (js "song") = None /\
  (JSNull = JSNull \/ exists l, JSNull = JSArray l).
Proof.
  split; [reflexivity|]. split; [reflexivity|].
  exact (proj2 (proj2 (proj1 (getLyrics_result_shape (env_with_file [] [])
                                lrcLoader (Some (js "song")))
                         JSNull eq_refl))
           (js "song") eq_refl eq_refl).
Defined.

(** ** Fetches *)

(** The events of [loadLRC]: none on a hit; on a miss the fetch first,
    then at most one log line. *)
Lemma loadLRC_events env this key :
  basePath (snd (loadLRC env this key)) = basePath this /\
  ((truthy (cache_get this key) = true /\
    trace (snd (loadLRC env this key)) = trace this) \/
   (truthy (cache_get this key) = false /\
    exists rest,
      trace (snd (loadLRC env this key))
      = trace this ++ EvFetch (lrc_url this key) :: rest /\
      List.filter is_fetch rest = [])).
Proof.
  unfold loadLRC. destruct (truthy (cache_get this key)) eqn:Hm.
  - cbn [snd]. auto.
  - cbn [emit basePath lrc_url]. fold (lrc_url this key).
    destruct (fetch env (lrc_url this key)) as [[|]|[|] [text|[|]]];
      try destruct (0 <? _)%Z; unfold catch_error;
      cbn [snd emit cache_set basePath trace]; rewrite <- ?app_assoc;
      (split; [reflexivity|]); right; (split; [reflexivity|]);
      eexists; (split; [reflexivity|]); reflexivity.
Qed.

(** [getLyrics] adds to the events of [loadLRC] at most the look at the
    fallback table. *)
Lemma getLyrics_events env this c key :
  basePath (snd (getLyrics env this (Some (c :: key))))
  = basePath (snd (loadLRC env this (c :: key))) /\
  exists tail,
    trace (snd (getLyrics env this (Some (c :: key))))
    = trace (snd (loadLRC env this (c :: key))) ++ tail /\
    List.filter is_fetch tail = [].
Proof.
  unfold getLyrics.
  destruct (loadLRC env this (c :: key)) as [[v|] this'].
  - destruct (truthy v && length_positive v).
    + cbn [snd]. split; [reflexivity|]. exists []. now rewrite app_nil_r.
    + destruct (truthy (fallback_lines env (c :: key)));
        cbn [snd emit basePath trace]; (split; [reflexivity|]);
        exists [EvLyricsData (c :: key)]; auto.
  - cbn [snd]. split; [reflexivity|]. exists []. now rewrite app_nil_r.
Qed.

(** X12: one call of [getLyrics] fetches at most once.  When it does,
    the fetch is the first thing the call does, the key is not empty and
    was not found in the cache, and the address is the base path
    followed by the key and [".lrc"].  The base path is never changed. *)
Theorem one_fetch_per_call (env : Env) (this : LRCLoader)
  (key : option jsstring) (new : list Event) :
  trace (snd (getLyrics env this key)) = trace this ++ new ->
  basePath (snd (getLyrics env this key)) = basePath this /\
  (length (List.filter is_fetch new) <= 1)%nat /\
  forall url, In (EvFetch url) new ->
    exists k rest,
      key = Some k /\ k <> [] /\ truthy (cache_get this k) = false /\
      url = basePath this ++ k ++ js ".lrc" /\
      new = EvFetch url :: rest.
Proof.
  intros Hnew. destruct key as [[|c key]|].
  - cbn [getLyrics snd] in *.
    rewrite <- (app_nil_r (trace this)) in Hnew at 1.
    apply app_inv_head in Hnew as <-. repeat split; [simpl; lia|].
    intros url [].
  - destruct (getLyrics_events env this c key) as (Hb & tail & Ht & Hf).
    destruct (loadLRC_events env this (c :: key))
      as (Hb' & [[Hm Hl]|(Hm & rest & Hl & Hr)]).
    + rewrite Ht, Hl in Hnew. apply app_inv_head in Hnew as <-.
      split; [congruence|]. rewrite Hf. split; [simpl; lia|].
      intros url Hin.
      assert (Hin' : In (EvFetch url) (List.filter is_fetch tail))
        by (apply filter_In; auto).
      rewrite Hf in Hin'. elim Hin'.
    + rewrite Ht, Hl, <- app_assoc in Hnew. apply app_inv_head in Hnew.
      cbn [app] in Hnew. subst new.
      split; [congruence|]. cbn [List.filter is_fetch].
      rewrite List.filter_app, Hr, Hf. split; [simpl; lia|].
      intros url [[= <-]|Hin].
      * exists (c :: key), (rest ++ tail). repeat split; auto.
      * exfalso.
        assert (Hin' : In (EvFetch url) (List.filter is_fetch (rest ++ tail)))
          by (apply filter_In; auto).
        rewrite List.filter_app, Hr, Hf in Hin'. elim Hin'.
  - cbn [getLyrics snd] in *.
    rewrite <- (app_nil_r (trace this)) in Hnew at 1.
    apply app_inv_head in Hnew as <-. repeat split; [simpl; lia|].
    intros url [].
Qed.

Lemma one_fetch_per_call_witness :
  trace (snd (getLyrics (env_with_file (js "./assets/lyrics/song.lrc")
                           (js "[00:01]La"))
                lrcLoader (Some (js "song"))))
  = trace lrcLoader
    ++ [EvFetch (js "./assets/lyrics/song.lrc"); EvLogLoaded (js "song") 1]
  /\ (length (List.filter is_fetch
                [EvFetch (js "./assets/lyrics/song.lrc");
                 EvLogLoaded (js "song") 1]) <= 1)%nat.
Proof.
  split; [reflexivity|].
  exact (proj1 (proj2 (one_fetch_per_call
                         (env_with_file (js "./assets/lyrics/song.lrc")
                            (js "[00:01]La"))
                         lrcLoader (Some (js "song")) _ eq_refl))).
Defined.

(** ** Asking again *)

Lemma cache_get_same a b key :
  same_fields a b -> cache_get a key = cache_get b key.
Proof. intros [_ Hc]. unfold cache_get. now rewrite Hc. Qed.

(** The result of a call and the fields it leaves depend on the fields
    of the loader only, not on the events before. *)
Lemma loadLRC_same env a b key :
  same_fields a b ->
  fst (loadLRC env a key) = fst (loadLRC env b key) /\
  same_fields (snd (loadLRC env a key)) (snd (loadLRC env b key)).
Proof.
  intros H. pose proof H as [Hb Hc]. unfold loadLRC.
  rewrite (cache_get_same _ _ key H).
  destruct (truthy (cache_get b key)); [now split|].
  cbn [emit basePath lrc_url]. unfold lrc_url. rewrite Hb.
  destruct (fetch env _) as [[|]|[|] [text|[|]]];
    try destruct (0 <? _)%Z; unfold catch_error;
    cbn [fst snd]; (split; [reflexivity|]);
    unfold same_fields, emit, cache_set; cbn [basePath cache];
    rewrite ?Hb, ?Hc; auto.
Qed.

Lemma getLyrics_same env a b key :
  same_fields a b ->
  fst (getLyrics env a key) = fst (getLyrics env b key) /\
  same_fields (snd (getLyrics env a key)) (snd (getLyrics env b key)).
Proof.
  intros H. destruct key as [[|c key]|]; [now split| |now split].
  unfold getLyrics.
  destruct (loadLRC_same env a b (c :: key) H) as [Hv Hs].
  destruct (loadLRC env a (c :: key)) as [va a'].
  destruct (loadLRC env b (c :: key)) as [vb b'].
  cbn [fst snd] in Hv, Hs. subst vb. destruct va as [va|]; [|now split].
  destruct (truthy va && length_positive va); [now split|].
  destruct (truthy (fallback_lines env (c :: key))); now split.
Qed.

(** X13: asking again gives the same answer: a second call of
    [getLyrics] with the same key, when the collaborators answer as for
    the first, returns what the first returned and leaves the cache as
    the first left it. *)
Theorem getLyrics_again (env : Env) (this : LRCLoader)
  (key : option jsstring) :
  fst (getLyrics env (snd (getLyrics env this key)) key)
  = fst (getLyrics env this key) /\
  cache (snd (getLyrics env (snd (getLyrics env this key)) key))
  = cache (snd (getLyrics env this key)).
Proof.
  destruct (getLyrics_frame env this key)
    as (new & Hb & _ & [[Hc _] | (k & l & -> & Hs & Hv & Hc)]).
  - assert (H : same_fields (snd (getLyrics env this key)) this)
      by (split; assumption).
    destruct (getLyrics_same env _ _ key H) as [Hv [_ Hc']].
    split; [exact Hv|]. now rewrite Hc', Hc.
  - pose proof Hs as (Hkey & _ & _ & _ & _ & Hne).
    rewrite (getLyrics_hit env (snd (getLyrics env this (Some k))) k l Hkey);
      [now split| |exact Hne].
    rewrite Hc. apply lookup_insert_eq.
Qed.

(** X14: a failure is not remembered.  After a call whose primary path
    found nothing (so that it answered from the fallback table or with
    [null], or threw), a call for the same key for which the fetch
    succeeds with text that parses to entries returns those entries. *)
Theorem failure_not_cached (env1 env2 : Env) (this : LRCLoader)
  (key : jsstring) (lyrics : list LyricLine) :
  truthy (cache_get this key) = false ->
  primary_fails env1 this key ->
  stores env2 this key lyrics ->
  fst (getLyrics env2 (snd (getLyrics env1 this (Some key))) (Some key))
  = Normal (JSArray lyrics).
Proof.
  intros Hmiss Hf Hs. pose proof Hs as (Hkey & _).
  destruct (loadLRC_fails env1 this key Hkey Hmiss Hf)
    as (cpl & new & [-> | ->] & Hl);
    [rewrite (getLyrics_after_loadLRC _ _ _ _ _ Hkey Hl eq_refl)
    |rewrite (getLyrics_after_throw _ _ _ _ Hkey Hl)];
    cbn [snd];
  match goal with
  | |- fst (getLyrics env2 ?a _) = _ =>
      assert (H : same_fields a this) by (split; reflexivity);
      rewrite (proj1 (getLyrics_same env2 a this (Some key) H))
  end;
  now rewrite (getLyrics_stores _ _ _ _ Hs).
Qed.

Lemma failure_not_cached_witness :
  truthy (cache_get lrcLoader (js "song")) = false /\
  primary_fails (env_with_file [] []) lrcLoader (js "song") /\
  fst (getLyrics
         (env_with_file (js "./assets/lyrics/song.lrc") (js "[00:01]La"))
         (snd (getLyrics (env_with_file [] []) lrcLoader (Some (js "song"))))
         (Some (js "song")))
  = Normal (JSArray [{| time := 1; text := js "La" |}]).
Proof.
  assert (Hf : primary_fails (env_with_file [] []) lrcLoader (js "song"))
    by (right; left; exists (BodyText []); reflexivity).
  split; [reflexivity|]. split; [exact Hf|].
  apply (failure_not_cached (env_with_file [] [])
           (env_with_file (js "./assets/lyrics/song.lrc") (js "[00:01]La"))
           lrcLoader (js "song") _ eq_refl Hf).
  split; [discriminate|]. split; [reflexivity|].
  exists (js "[00:01]La"). repeat split. discriminate.
Defined.

(** * The order of the lines *)

Lemma at_time_app t l1 l2 :
  at_time t (l1 ++ l2) = at_time t l1 ++ at_time t l2.
Proof. apply List.filter_app. Qed.

Lemma parseLRC_sorted_lyrics a b :
  sorted_lyrics a = sorted_lyrics b -> parseLRC a = parseLRC b.
Proof. intros H. unfold parseLRC. now rewrite H. Qed.

(** X15: two blocks of lines may be exchanged without changing the
    result, provided no time occurs in both blocks: only entries with
    equal times depend on the order of the lines. *)
Theorem parseLRC_blocks_commute (a b : jsstring) :
  (forall t, at_time t (collect a) = [] \/ at_time t (collect b) = []) ->
  parseLRC (a ++ 0x0A :: b) = parseLRC (b ++ 0x0A :: a).
Proof.
  intros H. apply parseLRC_sorted_lyrics. unfold sorted_lyrics.
  rewrite !collect_lines_app. apply sorted_stable_unique.
  - apply Array_sort_sorted.
  - apply Array_sort_sorted.
  - intros t. rewrite !at_time_Array_sort, !at_time_app.
    destruct (H t) as [-> | ->]; now rewrite app_nil_r.
Qed.

Lemma parseLRC_blocks_commute_witness :
  parseLRC (js "[00:04]b" ++ 0x0A :: js "[00:01]a")
  = parseLRC (js "[00:01]a" ++ 0x0A :: js "[00:04]b").
Proof.
  apply parseLRC_blocks_commute. intros t.
  destruct (Z.eqb_spec 4 t) as [<-|Hne]; [right; reflexivity|].
  left. unfold at_time.
  change (collect (js "[00:04]b")) with [{| time := 4; text := js "b" |}].
  cbn [List.filter time]. destruct (Z.eqb_spec 4 t); [contradiction|].
  reflexivity.
Defined.

(** * Calls that overlap *)

(** One stretch of a call keeps the cache or writes one parsed,
    non-empty sequence into it. *)
Lemma resume_cache this t :
  cache (fst (resume this t)) = cache this \/
  exists k lrcContent,
    parseLRC lrcContent <> [] /\
    cache (fst (resume this t)) = <[k := parseLRC lrcContent]> (cache this).
Proof.
  destruct t as [env [[|c k]|]|env k [[|]|[|] body]|env k [text|[|]]
                |env k [v|]|r]; cbn [resume]; try (now left).
  - destruct (truthy (cache_get this (c :: k))); now left.
  - destruct (parseLRC text) as [|e l] eqn:Hp; [now left|].
    cbn [length]. right. exists k, text. rewrite Hp. split; [discriminate|].
    reflexivity.
  - destruct (truthy v && length_positive v); [now left|].
    destruct (truthy (fallback_lines env k)); now left.
Qed.

Lemma interleave_cache schedule : forall this pool k,
  is_Some (cache this !! k) ->
  is_Some (cache (fst (interleave this pool schedule)) !! k) /\
  forall lyrics,
    cache (fst (interleave this pool schedule)) !! k = Some lyrics ->
    cache this !! k = Some lyrics \/
    exists lrcContent, lyrics = parseLRC lrcContent /\ lyrics <> [].
Proof.
  induction schedule as [|i schedule IH]; intros this pool k Hk.
  - simpl. split; [exact Hk|]. auto.
  - cbn [interleave]. destruct (pool !! i) as [t|]; [|now apply IH].
    pose proof (resume_cache this t) as Hc.
    destruct (resume this t) as [this' t']. cbn [fst] in Hc.
    assert (Hk' : is_Some (cache this' !! k)).
    { destruct Hc as [->|(k' & text & _ & ->)]; [exact Hk|].
      destruct (decide (k' = k)) as [->|Hne].
      - rewrite lookup_insert_eq. eauto.
      - now rewrite lookup_insert_ne. }
    destruct (IH this' (<[i := t']> pool) k Hk') as [H1 H2].
    split; [exact H1|]. intros lyrics Hl.
    destruct (H2 lyrics Hl) as [H|H]; [|now right].
    destruct Hc as [Hc|(k' & text & Hne & Hc)]; rewrite Hc in H; [now left|].
    destruct (decide (k' = k)) as [->|Hnk].
    + rewrite lookup_insert_eq in H. injection H as <-. right. eauto.
    + rewrite lookup_insert_ne in H by exact Hnk. now left.
Qed.

(** A call taken alone through its four stretches is the call of
    [getLyrics] run to completion. *)
Lemma resume_getLyrics env this key :
  interleave this [Called env key] [0; 0; 0; 0]%nat
  = (snd (getLyrics env this key), [Settled (fst (getLyrics env this key))]).
Proof.
  destruct key as [[|c k]|]; [reflexivity| |reflexivity].
  unfold getLyrics, loadLRC.
  cbn [interleave lookup list_lookup resume insert list_insert].
  destruct (truthy (cache_get this (c :: k))) eqn:Hm.
  - cbn [interleave lookup list_lookup resume insert list_insert].
    destruct (truthy (cache_get this (c :: k))
              && length_positive (cache_get this (c :: k))); [reflexivity|].
    destruct (truthy (fallback_lines env (c :: k))); reflexivity.
  - cbn [emit basePath lrc_url]. fold (lrc_url this (c :: k)).
    destruct (fetch env (lrc_url this (c :: k))) as [[|]|[|] [text|[|]]];
      try destruct (0 <? Z.of_nat (length (parseLRC text)))%Z eqn:Hp;
      cbn [interleave lookup list_lookup resume insert list_insert
           catch_error truthy length_positive andb fst snd];
      rewrite ?Hp;
      cbn [interleave lookup list_lookup resume insert list_insert
           catch_error truthy length_positive andb fst snd];
      rewrite ?Hp; cbn [andb];
      try reflexivity;
      destruct (truthy (fallback_lines env (c :: k))); reflexivity.
Qed.


